(** * The gitbase query analyzer: rules of [analyzer] over plans of [sql]

    A shallow embedding of the analyzer rules of [database.go] (package
    [analyzer]): plans and expressions are closed inductive types, Go's
    [(value, error)] results are a sum, and the closures that mutate
    captured variables run in a state monad. *)

From Stdlib Require Import ZArith Lia.
From stdpp Require Import base strings list gmap.

Set Warnings "-register-all".

Local Open Scope Z_scope.
Local Open Scope string_scope.
Local Open Scope list_scope.

(** ** Package [sql]: columns, schemas, errors *)

Module sql.

(** The column types a schema can mention. *)
Inductive SqlType : Set :=
| Text | Int64 | Boolean | Timestamp | Blob.

#[global] Instance SqlType_eq_dec : EqDecision SqlType.
Proof. solve_decision. Defined.

(** [sql.Column]: the rules read [Name], [Type], [Source] and
    [Nullable]. *)
Record Column : Set := mkColumn
  { Name : string; Type_ : SqlType; Source : string; Nullable : bool }.

#[global] Instance Column_eq_dec : EqDecision Column.
Proof. solve_decision. Defined.

(** The error kinds raised by the rules.  Each carries the arguments
    its [New] call is given, in order. *)
Inductive Error : Set :=
| ErrColumnTableNotFound (table column : string)
| ErrAmbiguousColumnName (column tables : string)
| ErrFieldMissing (field : string)
| ErrTableNotFound (table : string)
| ErrDatabaseNotFound (database : string).

#[global] Instance Error_eq_dec : EqDecision Error.
Proof. solve_decision. Defined.

(** Go's [(T, error)] with a nil error ([Ok]) or a non-nil one. *)
Inductive result (A : Type) : Type :=
| Ok (a : A)
| Err (e : Error).
Arguments Ok {A} a.
Arguments Err {A} e.

#[global] Instance result_ret : MRet result := λ A a, Ok a.
#[global] Instance result_bind : MBind result := λ A B k m,
  match m with
  | Ok a => k a
  | Err e => Err e
  end.

(** A closure that updates captured variables of type [S] and may
    fail.  The update made before a failure stays visible, as it does
    for a Go closure. *)
Definition St (S A : Type) : Type := S → S * result A.

#[global] Instance St_ret {S} : MRet (St S) := λ A a s, (s, Ok a).
#[global] Instance St_bind {S} : MBind (St S) := λ A B k m s,
  match m s with
  | (s', Ok a) => k a s'
  | (s', Err e) => (s', Err e)
  end.

Definition get {S} : St S S := λ s, (s, Ok s).
Definition put {S} (s : S) : St S unit := λ _, (s, Ok tt).
Definition modify {S} (g : S → S) : St S unit := λ s, (g s, Ok tt).
Definition lift {S A} (r : result A) : St S A := λ s, (s, r).

End sql.
Export sql.

(** ** Package [gitbase]: the database *)

Module gitbase.

Definition ReferencesTableName := "refs".
Definition CommitsTableName := "commits".
Definition BlobsTableName := "blobs".
Definition TreeEntriesTableName := "tree_entries".
Definition RepositoriesTableName := "repositories".
Definition RemotesTableName := "remotes".

(** [Database]: its name, read by [Name()]; the six tables it holds are
    fixed.  [NewDatabase name] builds it. *)
Record Database : Set := NewDatabase { dbName : string }.

(** The keys of the map [Tables()] returns. *)
Definition Tables (d : Database) : list string :=
  [ CommitsTableName; ReferencesTableName; BlobsTableName;
    TreeEntriesTableName; RepositoriesTableName; RemotesTableName ].

End gitbase.
Export gitbase.

(** ** Package [expression] *)

Module expression.

Inductive Value : Set :=
| VNull | VInt (z : Z) | VText (s : string) | VBool (b : bool).

Inductive CmpOp : Set := OpEq | OpLt | OpGt | OpLe | OpGe.
Inductive ArithOp : Set := OpPlus | OpMinus | OpMult | OpDiv.

(** The expression variants.  [NewUnresolvedQualifiedColumn] returns
    the same Go type as an unqualified reference (its result is assigned
    to a [*expression.UnresolvedColumn] in [qualifyColumns]), so a
    qualified reference is [UnresolvedColumn] with a non-empty table. *)
Inductive Expression : Set :=
| UnresolvedColumn (table name : string)
| UnresolvedFunction (name : string) (args : list Expression)
| GetField (index : Z) (ty : SqlType) (table name : string) (nullable : bool)
| Star
| Literal (v : Value) (ty : SqlType)
| Not (child : Expression)
| And (left right : Expression)
| Or (left right : Expression)
| Comparison (op : CmpOp) (left right : Expression)
| Arithmetic (op : ArithOp) (left right : Expression)
| FunctionCall (name : string) (args : list Expression).

#[global] Instance Value_eq_dec : EqDecision Value.
Proof. solve_decision. Defined.
#[global] Instance CmpOp_eq_dec : EqDecision CmpOp.
Proof. solve_decision. Defined.
#[global] Instance ArithOp_eq_dec : EqDecision ArithOp.
Proof. solve_decision. Defined.

(** Structural equality of expressions ([reflect.DeepEqual] on the
    expression trees). *)
Fixpoint Expression_eq_dec (a b : Expression) {struct a} : {a = b} + {a ≠ b}.
Proof.
  pose proof (List.list_eq_dec Expression_eq_dec) as Hl.
  decide equality;
    solve [ apply (decide (_ = _)) | apply Z.eq_dec | apply bool_dec
          | apply String.string_dec ].
Defined.

#[global] Instance Expression_eq : EqDecision Expression := Expression_eq_dec.

Definition NewUnresolvedQualifiedColumn (table name : string) : Expression :=
  UnresolvedColumn table name.

Definition NewGetFieldWithTable
    (index : Z) (ty : SqlType) (table name : string) (nullable : bool)
  : Expression :=
  GetField index ty table name nullable.

(** Modelled from the spec: [NewGetField] is the four-argument
    constructor of a field accessor ([GetField(i, type, name, nullable)]
    in the description of [resolve_star]); it is given no table, and the
    accessor it builds has the empty table qualifier. *)
Definition NewGetField
    (index : Z) (ty : SqlType) (name : string) (nullable : bool)
  : Expression :=
  NewGetFieldWithTable index ty "" name nullable.

(** Modelled from the spec: the expression method [TransformUp], the
    bottom-up rewrite of an expression and its sub-expressions.  The
    children are rewritten first, left to right, the expression is
    rebuilt from them and the callback is applied to the rebuilt
    expression; the first failure aborts the traversal.  It is written
    once for any monad, since some callbacks only fail and others also
    update captured state. *)
Fixpoint TransformUp {M : Type → Type} `{!MBind M, !MRet M}
    (f : Expression → M Expression) (e : Expression) : M Expression :=
  match e with
  | UnresolvedFunction n args =>
      args' ← mapM (TransformUp f) args; f (UnresolvedFunction n args')
  | Not c => c' ← TransformUp f c; f (Not c')
  | And l r =>
      l' ← TransformUp f l; r' ← TransformUp f r; f (And l' r')
  | Or l r =>
      l' ← TransformUp f l; r' ← TransformUp f r; f (Or l' r')
  | Comparison op l r =>
      l' ← TransformUp f l; r' ← TransformUp f r; f (Comparison op l' r')
  | Arithmetic op l r =>
      l' ← TransformUp f l; r' ← TransformUp f r; f (Arithmetic op l' r')
  | FunctionCall n args =>
      args' ← mapM (TransformUp f) args; f (FunctionCall n args')
  | UnresolvedColumn _ _ | GetField _ _ _ _ _ | Star | Literal _ _ => f e
  end.

(** Modelled from the spec: the resolved flag of an expression, true
    once all its sub-expressions are bound.  A column or function
    reference and [Star] are not bound. *)
Fixpoint Resolved (e : Expression) : bool :=
  match e with
  | UnresolvedColumn _ _ | UnresolvedFunction _ _ | Star => false
  | GetField _ _ _ _ _ | Literal _ _ => true
  | Not c => Resolved c
  | And l r | Or l r | Comparison _ l r | Arithmetic _ l r =>
      Resolved l && Resolved r
  | FunctionCall _ args => forallb Resolved args
  end.

End expression.
Export expression.

(** ** Package [plan] *)

Module plan.

(** The optional pushdown interfaces a table implements.  Only a table
    with projection and filters pushdown has [HandledFilters]. *)
Inductive Capability : Type :=
| NoPushdown
| ProjectionPushdown
| ProjectionAndFiltersPushdown
    (HandledFilters : list Expression → list Expression).

(** A catalog table: [Name()], its declared schema, its capability. *)
Record Table : Type := mkTable
  { tName : string; tSchema : list Column; tCap : Capability }.

Inductive Order : Set := Ascending | Descending.

Record SortField : Set := mkSortField
  { sfColumn : Expression; sfOrder : Order }.

(** The plan nodes.  [CrossJoin] is the node with two children that
    the scenarios write [Join]. *)
Inductive Node : Type :=
| UnresolvedTable (name : string)
| ResolvedTable (t : Table)
| Project (exprs : list Expression) (child : Node)
| Filter (e : Expression) (child : Node)
| Sort (fields : list SortField) (child : Node)
| Distinct (child : Node)
| OrderedDistinct (child : Node)
| CrossJoin (left right : Node)
| TableAlias (name : string) (child : Node)
| SubqueryAlias (name : string) (child : Node)
| ShowTables (db : option Database)
| CreateTable (db : option Database) (name : string) (schema : list Column)
| PushdownProjectionTable (cols : list string) (inner : Table)
| PushdownProjectionAndFiltersTable
    (cols handled : list Expression) (inner : Table).

(** Modelled from the spec: the children of a node.  The two scan
    wrappers hold a table, not a child plan. *)
Definition Children (n : Node) : list Node :=
  match n with
  | Project _ c | Filter _ c | Sort _ c | Distinct c | OrderedDistinct c
  | TableAlias _ c | SubqueryAlias _ c => [c]
  | CrossJoin l r => [l; r]
  | UnresolvedTable _ | ResolvedTable _ | ShowTables _ | CreateTable _ _ _
  | PushdownProjectionTable _ _
  | PushdownProjectionAndFiltersTable _ _ _ => []
  end.

(** Modelled from the spec: a plan is resolved iff every descendant
    node and every descendant expression is resolved.  A schema
    introspection node is resolved once its database slot is filled. *)
Fixpoint Resolved (n : Node) : bool :=
  match n with
  | UnresolvedTable _ => false
  | ResolvedTable _ => true
  | Project exprs c => forallb expression.Resolved exprs && Resolved c
  | Filter e c => expression.Resolved e && Resolved c
  | Sort fields c =>
      forallb (λ f, expression.Resolved (sfColumn f)) fields && Resolved c
  | Distinct c | OrderedDistinct c | TableAlias _ c | SubqueryAlias _ c =>
      Resolved c
  | CrossJoin l r => Resolved l && Resolved r
  | ShowTables db | CreateTable db _ _ => bool_decide (is_Some db)
  | PushdownProjectionTable _ _ => true
  | PushdownProjectionAndFiltersTable cols handled _ =>
      forallb expression.Resolved cols && forallb expression.Resolved handled
  end.

(** The [Schema()] method of a node is implemented per node type in
    package [plan], outside [database.go]; the rules only call it.  It is
    a parameter of the development. *)
Class NodeSchema : Type := Schema : Node → list Column.

(** Modelled from the spec: the node method [TransformUp].  Each child
    is transformed first, a new node is built from the rewritten
    children, and the callback is applied to that node; the first
    failure aborts the traversal. *)
Fixpoint TransformUp {M : Type → Type} `{!MBind M, !MRet M}
    (f : Node → M Node) (n : Node) : M Node :=
  match n with
  | Project exprs c => c' ← TransformUp f c; f (Project exprs c')
  | Filter e c => c' ← TransformUp f c; f (Filter e c')
  | Sort fields c => c' ← TransformUp f c; f (Sort fields c')
  | Distinct c => c' ← TransformUp f c; f (Distinct c')
  | OrderedDistinct c => c' ← TransformUp f c; f (OrderedDistinct c')
  | CrossJoin l r =>
      l' ← TransformUp f l; r' ← TransformUp f r; f (CrossJoin l' r')
  | TableAlias name c => c' ← TransformUp f c; f (TableAlias name c')
  | SubqueryAlias name c => c' ← TransformUp f c; f (SubqueryAlias name c')
  | UnresolvedTable _ | ResolvedTable _ | ShowTables _ | CreateTable _ _ _
  | PushdownProjectionTable _ _
  | PushdownProjectionAndFiltersTable _ _ _ => f n
  end.

(** Modelled from the spec: the node method [TransformExpressionsUp].
    The node is rebuilt with every expression it holds rewritten by
    [expression.TransformUp]; the children are untouched. *)
Definition TransformExpressionsUp {M : Type → Type} `{!MBind M, !MRet M}
    (f : Expression → M Expression) (n : Node) : M Node :=
  match n with
  | Project exprs c =>
      exprs' ← mapM (expression.TransformUp f) exprs; mret (Project exprs' c)
  | Filter e c => e' ← expression.TransformUp f e; mret (Filter e' c)
  | Sort fields c =>
      fields' ← mapM (λ sf,
                   col ← expression.TransformUp f (sfColumn sf);
                   mret (mkSortField col (sfOrder sf))) fields;
      mret (Sort fields' c)
  | PushdownProjectionAndFiltersTable cols handled t =>
      cols' ← mapM (expression.TransformUp f) cols;
      handled' ← mapM (expression.TransformUp f) handled;
      mret (PushdownProjectionAndFiltersTable cols' handled' t)
  | _ => mret n
  end.

(** Modelled from the spec: a node is a [sql.Table] when it is a node
    with a [Name()]: a catalog table, a scan wrapper (the name of the
    table it wraps) or an alias. *)
Definition asTable (n : Node) : option string :=
  match n with
  | ResolvedTable t => Some (tName t)
  | PushdownProjectionTable _ t
  | PushdownProjectionAndFiltersTable _ _ t => Some (tName t)
  | TableAlias name _ | SubqueryAlias name _ => Some name
  | _ => None
  end.

End plan.
Export plan.

(** ** Package [analyzer]: the rules *)

Module analyzer.

(** [sql.Catalog], as far as the rules below consult it. *)
Record sqlCatalog : Type := mkCatalog
  { Database : string → result gitbase.Database;
    Table : string → string → result plan.Table }.

(** The analyzer a rule receives.  [a.Log] only writes to a logger and
    is left out. *)
Record Analyzer : Type := mkAnalyzer
  { Catalog : sqlCatalog; CurrentDatabase : string }.

(** The rule functions [DefaultRules] refers to: [fnPushdown] stands for
    the Go function value [pushdown], and so on. *)
Inductive RuleFunc : Set :=
| fnResolveSubqueries | fnResolveTables | fnQualifyColumns | fnResolveColumns
| fnResolveDatabase | fnResolveStar | fnResolveFunctions | fnPushdown
| fnOptimizeDistinct.

Record Rule : Set := mkRule { RuleName : string; Apply : RuleFunc }.

Definition DefaultRules : list Rule :=
  [ mkRule "resolve_subqueries" fnResolveSubqueries;
    mkRule "resolve_tables" fnResolveTables;
    mkRule "qualify_columns" fnQualifyColumns;
    mkRule "resolve_columns" fnResolveColumns;
    mkRule "resolve_database" fnResolveDatabase;
    mkRule "resolve_star" fnResolveStar;
    mkRule "resolve_functions" fnResolveFunctions;
    mkRule "pushdown" fnPushdown;
    mkRule "optimize_distinct" fnOptimizeDistinct ].

(** *** [dedupStrings] *)

(** One iteration of the loop: [seen] and [result] after string [s]. *)
Definition dedupStep (acc : gset string * list string) (s : string)
  : gset string * list string :=
  let '(seen, result) := acc in
  if decide (s ∈ seen) then (seen, result)
  else ({[ s ]} ∪ seen, result ++ [s]).

Definition dedupStrings (in_ : list string) : list string :=
  (foldl dedupStep (∅, []) in_).2.

(** *** [qualifyColumns] *)

(** The three maps the closures of [qualifyColumns] capture. *)
Record qualifyState : Type := mkQualifyState
  { tables : gmap string Node;
    tableAliases : gmap string string;
    colIndex : gmap string (list string) }.

Definition qualifyInit : qualifyState := mkQualifyState ∅ ∅ ∅.

(** The closure [indexCols]: [colIndex[col.Name] = append(colIndex[col.Name], table)]
    for every column; indexing a missing key gives the nil slice. *)
Definition indexCols (table : string) (schema : list Column)
    (colIndex : gmap string (list string)) : gmap string (list string) :=
  foldl (λ ci col, <[Name col := default [] (ci !! Name col) ++ [table]]> ci)
        colIndex schema.

(** The expression callback, run with the maps as they are when the
    node is visited. *)
Definition qualifyColumn (st : qualifyState) (e : Expression)
  : result Expression :=
  match e with
  | UnresolvedColumn table name =>
      if decide (table = "") then
        let tables := dedupStrings (default [] (colIndex st !! name)) in
        match tables with
        | [] => Err (ErrColumnTableNotFound table name)
        | [t] => Ok (NewUnresolvedQualifiedColumn t name)
        | _ => Err (ErrAmbiguousColumnName name (String.concat ", " tables))
        end
      else
        let table' :=
          match tableAliases st !! table with
          | Some real => real
          | None => table
          end in
        match tables st !! table' with
        | None => Err (ErrTableNotFound table')
        | Some _ => Ok (NewUnresolvedQualifiedColumn table' name)
        end
  | _ => Ok e
  end.

(** The bookkeeping done on a node before its expressions are
    rewritten: the type switch on [*plan.TableAlias], then [sql.Table]. *)
Definition recordNode `{!NodeSchema} (n : Node) (st : qualifyState)
  : qualifyState :=
  match n with
  | TableAlias name child =>
      match asTable child with
      | Some real =>
          mkQualifyState (tables st) (<[name := real]> (tableAliases st))
                         (colIndex st)
      | None =>
          mkQualifyState (<[name := child]> (tables st)) (tableAliases st)
                         (indexCols name (Schema n) (colIndex st))
      end
  | _ =>
      match asTable n with
      | Some name =>
          mkQualifyState (<[name := n]> (tables st)) (tableAliases st)
                         (indexCols name (Schema n) (colIndex st))
      | None => st
      end
  end.

Definition qualifyColumns_node `{!NodeSchema} (n : Node)
  : St qualifyState Node :=
  λ st, let st' := recordNode n st in
        (st', TransformExpressionsUp (qualifyColumn st') n).

Definition qualifyColumns `{!NodeSchema} (a : Analyzer) (n : Node)
  : result Node :=
  (TransformUp qualifyColumns_node n qualifyInit).2.

(** *** [resolveDatabase]

    The rule assigns to a field of the node it is handed, so the node
    is a reference into a store of node objects.  The store also keeps
    the database names the catalog was asked for. *)

Definition loc : Set := positive.

Record World : Type := mkWorld
  { heap : gmap loc Node; lookups : list string }.

(** The result is the pair [(node, err)] the Go function returns. *)
Definition resolveDatabase (a : Analyzer) (n : loc) (w : World)
  : World * (loc * option Error) :=
  match heap w !! n with
  | Some (ShowTables _) =>
      let w := mkWorld (heap w) (lookups w ++ [CurrentDatabase a]) in
      match Database (Catalog a) (CurrentDatabase a) with
      | Err err => (w, (n, Some err))
      | Ok db =>
          (mkWorld (<[n := ShowTables (Some db)]> (heap w)) (lookups w),
           (n, None))
      end
  | Some (CreateTable _ name schema) =>
      let w := mkWorld (heap w) (lookups w ++ [CurrentDatabase a]) in
      match Database (Catalog a) (CurrentDatabase a) with
      | Err err => (w, (n, Some err))
      | Ok db =>
          (mkWorld (<[n := CreateTable (Some db) name schema]> (heap w))
                   (lookups w),
           (n, None))
      end
  | _ => (w, (n, None))
  end.

(** *** [resolveStar] *)

Definition resolveStar_node `{!NodeSchema} (n : Node) : result Node :=
  if Resolved n then Ok n
  else match n with
       | Project exprs child =>
           match exprs with
           | [e] =>
               match e with
               | Star =>
                   let exprs :=
                     imap (λ i e, NewGetField (Z.of_nat i) (Type_ e) (Name e)
                                              (Nullable e))
                          (Schema child) in
                   Ok (Project exprs child)
               | _ => Ok n
               end
           | _ => Ok n
           end
       | _ => Ok n
       end.

Definition resolveStar `{!NodeSchema} (a : Analyzer) (n : Node)
  : result Node :=
  TransformUp resolveStar_node n.

(** *** [resolveColumns] *)

Record columnInfo : Set := mkColumnInfo { idx : Z; col : Column }.

(** One iteration of the inner loop:
    [colMap[col.Name] = append(colMap[col.Name], columnInfo{idx, col}); idx++]. *)
Definition addColumn (acc : gmap string (list columnInfo) * Z) (col : Column)
  : gmap string (list columnInfo) * Z :=
  let '(colMap, idx) := acc in
  (<[Name col := default [] (colMap !! Name col) ++ [mkColumnInfo idx col]]>
     colMap,
   idx + 1).

(** The inner loop over one child's schema. *)
Definition addColumns (schema : list Column)
    (acc : gmap string (list columnInfo) * Z)
  : gmap string (list columnInfo) * Z :=
  foldl addColumn acc schema.

(** The loop over the children; [None] is the early [return n, nil]
    on an unresolved child. *)
Fixpoint buildColMap `{!NodeSchema} (children : list Node)
    (acc : gmap string (list columnInfo) * Z)
  : option (gmap string (list columnInfo)) :=
  match children with
  | [] => Some acc.1
  | child :: rest =>
      if negb (Resolved child) then None
      else buildColMap rest (addColumns (Schema child) acc)
  end.

Definition resolveColumn (n : Node) (colMap : gmap string (list columnInfo))
    (e : Expression) : result Expression :=
  if Resolved n then Ok e
  else match e with
       | UnresolvedColumn table name =>
           match colMap !! name with
           | None => Err (ErrColumnTableNotFound table name)
           | Some columnsInfo =>
               match list_find (λ c, Source (col c) = table) columnsInfo with
               | None => Err (ErrColumnTableNotFound table name)
               | Some (_, ci) =>
                   Ok (NewGetFieldWithTable (idx ci) (Type_ (col ci))
                         (Source (col ci)) (Name (col ci))
                         (Nullable (col ci)))
               end
           end
       | _ => Ok e
       end.

Definition resolveColumns_node `{!NodeSchema} (n : Node) : result Node :=
  if Resolved n then Ok n
  else match buildColMap (Children n) (∅, 0) with
       | None => Ok n
       | Some colMap => TransformExpressionsUp (resolveColumn n colMap) n
       end.

Definition resolveColumns `{!NodeSchema} (a : Analyzer) (n : Node)
  : result Node :=
  TransformUp resolveColumns_node n.

(** *** [optimizeDistinct] *)

Definition isSort (n : Node) : bool :=
  match n with Sort _ _ => true | _ => false end.

(** The callback of the scan; the captured flag [isSorted] is its
    state. *)
Definition checkSorted (node : Node) : St bool Node :=
  λ isSorted, (if isSort node then true else isSorted, Ok node).

Definition NewOrderedDistinct (child : Node) : Node := OrderedDistinct child.

Definition optimizeDistinct (a : Analyzer) (node : Node) : result Node :=
  match node with
  | Distinct child =>
      let isSorted := (TransformUp checkSorted node false).1 in
      if isSorted then Ok (NewOrderedDistinct child) else Ok node
  | _ => Ok node
  end.

(** *** [fixFieldIndexes] *)

Definition fixFieldIndex (schema : list Column) (e : Expression)
  : result Expression :=
  match e with
  | GetField _ ty table name nullable =>
      match list_find (λ col, name = Name col) schema with
      | Some (i, _) =>
          Ok (NewGetFieldWithTable (Z.of_nat i) ty table name nullable)
      | None => Err (ErrFieldMissing name)
      end
  | _ => Ok e
  end.

Definition fixFieldIndexes (schema : list Column) (exp : Expression)
  : result Expression :=
  expression.TransformUp (fixFieldIndex schema) exp.

Definition fixFieldIndexesOnExpressions (schema : list Column)
    (expressions : list Expression) : result (list Expression) :=
  mapM (fixFieldIndexes schema) expressions.

(** *** [pushdown] *)

(** Modelled from the spec: [splitExpression], the conjuncts of a
    predicate, obtained by flattening its top-level [And]s. *)
Fixpoint splitExpression (e : Expression) : list Expression :=
  match e with
  | And l r => splitExpression l ++ splitExpression r
  | _ => [e]
  end.

(** Modelled from the spec: [getUnhandledFilters], the filters of
    [all] that match no handled filter, where two expressions match
    when they are structurally equal. *)
Definition getUnhandledFilters (all handled : list Expression)
  : list Expression :=
  filter (λ f, ¬ Exists (λ h, f = h) handled) all.

(** Modelled from the spec: [expression.JoinAnd] on a non-empty list,
    the conjunction [And(...)] of its elements; a single element is
    returned as it is.  The rule calls it on a non-empty list only. *)
Definition JoinAnd (first : Expression) (rest : list Expression)
  : Expression :=
  foldl And first rest.

Definition NewFilter (e : Expression) (child : Node) : Node := Filter e child.

(** The tables named by the [GetField] leaves of an expression, in
    the order they are met. *)
Fixpoint fieldTables (e : Expression) : list string :=
  match e with
  | GetField _ _ table _ _ => [table]
  | UnresolvedFunction _ args | FunctionCall _ args =>
      concat (map fieldTables args)
  | Not c => fieldTables c
  | And l r | Or l r | Comparison _ l r | Arithmetic _ l r =>
      fieldTables l ++ fieldTables r
  | UnresolvedColumn _ _ | Star | Literal _ _ => []
  end.

(** Modelled from the spec: [exprToTableFilters], pass 2 on one
    predicate.  A conjunct that references exactly one table is
    appended to that table's list; one that references no table or two
    or more is skipped. *)
Definition exprToTableFilters (e : Expression)
  : gmap string (list Expression) :=
  foldl (λ fs c,
           match dedupStrings (fieldTables c) with
           | [t] => <[t := default [] (fs !! t) ++ [c]]> fs
           | _ => fs
           end)
        ∅ (splitExpression e).

(** Modelled from the spec: [filters.merge], which accumulates the
    per-table lists across [Filter] nodes. *)
Definition merge (f f2 : gmap string (list Expression))
  : gmap string (list Expression) :=
  union_with (λ l1 l2, Some (l1 ++ l2)) f f2.

(** The variables captured by the first pass. *)
Record usedColumns : Type := mkUsedColumns
  { tableFields : gset (string * string);
    fieldsByTable : gmap string (list string);
    exprsByTable : gmap string (list Expression) }.

Definition usedInit : usedColumns := mkUsedColumns ∅ ∅ ∅.

Definition collectField (e : Expression) : St usedColumns Expression :=
  λ st,
    match e with
    | GetField _ _ table name _ =>
        if decide ((table, name) ∈ tableFields st) then (st, Ok e)
        else
          (mkUsedColumns
             ({[ (table, name) ]} ∪ tableFields st)
             (<[table := default [] (fieldsByTable st !! table) ++ [name]]>
                (fieldsByTable st))
             (<[table := default [] (exprsByTable st !! table) ++ [e]]>
                (exprsByTable st)),
           Ok e)
    | _ => (st, Ok e)
    end.

Definition collectFilters (node : Node)
  : St (gmap string (list Expression)) Node :=
  λ filters,
    match node with
    | Filter e _ => (merge filters (exprToTableFilters e), Ok node)
    | _ => (filters, Ok node)
    end.

(** The callback of the last pass; the captured slice [handledFilters]
    is its state. *)
Definition pushdownNode `{!NodeSchema}
    (fieldsByTable : gmap string (list string))
    (exprsByTable filters : gmap string (list Expression))
    (node : Node) : St (list Expression) Node :=
  λ handledFilters,
    match node with
    | Filter e child =>
        match handledFilters with
        | [] => (handledFilters, Ok node)
        | _ :: _ =>
            let unhandled :=
              getUnhandledFilters (splitExpression e) handledFilters in
            match unhandled with
            | [] => (handledFilters, Ok child)
            | u :: us => (handledFilters, Ok (NewFilter (JoinAnd u us) child))
            end
        end
    | PushdownProjectionAndFiltersTable _ _ _
    | PushdownProjectionTable _ _ => (handledFilters, Ok node)
    | ResolvedTable t =>
        match tCap t with
        | ProjectionAndFiltersPushdown HandledFilters =>
            let cols := default [] (exprsByTable !! tName t) in
            let tableFilters := default [] (filters !! tName t) in
            let handled := HandledFilters tableFilters in
            let handledFilters := handledFilters ++ handled in
            let schema := Schema node in
            match fixFieldIndexesOnExpressions schema cols with
            | Err err => (handledFilters, Err err)
            | Ok cols =>
                match fixFieldIndexesOnExpressions schema handled with
                | Err err => (handledFilters, Err err)
                | Ok handled =>
                    (handledFilters,
                     Ok (PushdownProjectionAndFiltersTable cols handled t))
                end
            end
        | ProjectionPushdown =>
            let cols := default [] (fieldsByTable !! tName t) in
            (handledFilters, Ok (PushdownProjectionTable cols t))
        | NoPushdown => (handledFilters, Ok node)
        end
    | _ => (handledFilters, Ok node)
    end.

(** Modelled from the spec: the visit of the first pass, a
    transform-expressions-up visit over the whole tree that finds all the
    column expressions.  The expressions of every node of the plan are
    visited with [TransformExpressionsUp], the nodes being taken bottom-up
    as [TransformUp] takes them, and the captured variables are threaded
    through the whole visit. *)
Definition TransformExpressionsUpTree {M : Type → Type} `{!MBind M, !MRet M}
    (f : Expression → M Expression) (n : Node) : M Node :=
  TransformUp (TransformExpressionsUp f) n.

Definition pushdown `{!NodeSchema} (a : Analyzer) (n : Node) : result Node :=
  if negb (Resolved n) then Ok n
  else
    let used := (TransformExpressionsUpTree collectField n usedInit).1 in
    match TransformUp collectFilters n ∅ with
    | (_, Err err) => Err err
    | (filters, Ok node) =>
        (TransformUp
           (pushdownNode (fieldsByTable used) (exprsByTable used) filters)
           node []).2
    end.

(** *** [resolveSubqueries] *)

Definition NewSubqueryAlias (name : string) (child : Node) : Node :=
  SubqueryAlias name child.

(** [a.Analyze], the whole pipeline, is not part of [database.go]; the
    rule takes it as the argument [Analyze]. *)
Definition resolveSubqueries_node (Analyze : Node → result Node) (n : Node)
  : result Node :=
  match n with
  | SubqueryAlias name child =>
      match Analyze child with
      | Err err => Err err
      | Ok child => Ok (NewSubqueryAlias name child)
      end
  | _ => Ok n
  end.

Definition resolveSubqueries (Analyze : Node → result Node) (a : Analyzer)
    (n : Node) : result Node :=
  TransformUp (resolveSubqueries_node Analyze) n.

(** *** [resolveTables] *)

Definition resolveTables_node (a : Analyzer) (n : Node) : result Node :=
  if Resolved n then Ok n
  else match n with
       | UnresolvedTable name =>
           match Table (Catalog a) (CurrentDatabase a) name with
           | Err err => Err err
           | Ok rt => Ok (ResolvedTable rt)
           end
       | _ => Ok n
       end.

Definition resolveTables (a : Analyzer) (n : Node) : result Node :=
  TransformUp (resolveTables_node a) n.

(** *** [resolveFunctions] *)

(** What [a.Catalog.Function] returns for a name: the function, whose
    [Call] builds an expression from the arguments or fails.  The rule
    takes the lookup as the argument [Function]. *)
Definition FunctionLookup : Type :=
  string → result (list Expression → result Expression).

Definition resolveFunction (Function : FunctionLookup) (e : Expression)
  : result Expression :=
  if expression.Resolved e then Ok e
  else match e with
       | UnresolvedFunction n args =>
           match Function n with
           | Err err => Err err
           | Ok f =>
               match f args with
               | Err err => Err err
               | Ok rf => Ok rf
               end
           end
       | _ => Ok e
       end.

Definition resolveFunctions_node (Function : FunctionLookup) (n : Node)
  : result Node :=
  if Resolved n then Ok n
  else TransformExpressionsUp (resolveFunction Function) n.

Definition resolveFunctions (Function : FunctionLookup) (a : Analyzer)
    (n : Node) : result Node :=
  TransformUp (resolveFunctions_node Function) n.

(** *** The rules over the store

    A rule takes a node and returns a node and an error.  Of the nine
    rule functions only [resolveDatabase] assigns to a field of a node
    ([v.Database = db]); the other eight read the plan they are handed
    and make the plan they return with the transforms and the
    constructors of the plans.  Over the store such a rule reads the
    plan behind the reference it is handed and returns a plan by value;
    [resolveDatabase] returns the reference it was handed. *)




End analyzer.
Export analyzer.

(** ** Specification-side vocabulary

    The notions the statements below are phrased with.  None of them is
    used by the rules. *)

Module spec.

(** The names of the [GetField] sub-expressions of an expression. *)
Fixpoint fieldNames (e : Expression) : list string :=
  match e with
  | GetField _ _ _ name _ => [name]
  | UnresolvedFunction _ args | FunctionCall _ args =>
      concat (map fieldNames args)
  | Not c => fieldNames c
  | And l r | Or l r | Comparison _ l r | Arithmetic _ l r =>
      fieldNames l ++ fieldNames r
  | UnresolvedColumn _ _ | Star | Literal _ _ => []
  end.

(** The names of the [GetField]s of [e] that name no column of [S],
    in the order the traversal meets them. *)
Definition missingFields (S : list Column) (e : Expression) : list string :=
  filter (λ n, n ∉ Name <$> S) (fieldNames e).

(** [j] is the index of the column named [n] in [S] (the first one,
    should a schema repeat a name). *)
Definition columnIndex (S : list Column) (n : string) (j : nat) : Prop :=
  (∃ c, S !! j = Some c ∧ Name c = n) ∧
  ∀ k c, S !! k = Some c → Name c = n → (j ≤ k)%nat.

(** [Reindexed S e e']: [e'] is [e] with the index of every [GetField]
    replaced by the index in [S] of the column it names, and nothing
    else changed. *)
Inductive Reindexed (S : list Column) : Expression → Expression → Prop :=
| Reindexed_GetField i ty t n nl j :
    columnIndex S n j →
    Reindexed S (GetField i ty t n nl) (GetField (Z.of_nat j) ty t n nl)
| Reindexed_UnresolvedColumn t n :
    Reindexed S (UnresolvedColumn t n) (UnresolvedColumn t n)
| Reindexed_Star : Reindexed S Star Star
| Reindexed_Literal v ty : Reindexed S (Literal v ty) (Literal v ty)
| Reindexed_Not c c' : Reindexed S c c' → Reindexed S (Not c) (Not c')
| Reindexed_And l r l' r' :
    Reindexed S l l' → Reindexed S r r' → Reindexed S (And l r) (And l' r')
| Reindexed_Or l r l' r' :
    Reindexed S l l' → Reindexed S r r' → Reindexed S (Or l r) (Or l' r')
| Reindexed_Comparison op l r l' r' :
    Reindexed S l l' → Reindexed S r r' →
    Reindexed S (Comparison op l r) (Comparison op l' r')
| Reindexed_Arithmetic op l r l' r' :
    Reindexed S l l' → Reindexed S r r' →
    Reindexed S (Arithmetic op l r) (Arithmetic op l' r')
| Reindexed_UnresolvedFunction n args args' :
    Forall2 (Reindexed S) args args' →
    Reindexed S (UnresolvedFunction n args) (UnresolvedFunction n args')
| Reindexed_FunctionCall n args args' :
    Forall2 (Reindexed S) args args' →
    Reindexed S (FunctionCall n args) (FunctionCall n args').


(** What one run of [fixFieldIndexes] on [e] establishes about its
    result [r]. *)
Definition fixOutcome (S : list Column) (e : Expression)
    (r : result Expression) : Prop :=
  match r with
  | Ok e' => Reindexed S e e' ∧ missingFields S e = []
  | Err err => ∃ n, err = ErrFieldMissing n ∧ head (missingFields S e) = Some n
  end.

(** [InTree m n]: [m] is a node of the plan rooted at [n], at any
    depth. *)
Inductive InTree : Node → Node → Prop :=
| InTree_root n : InTree n n
| InTree_child m c n : c ∈ Children n → InTree m c → InTree m n.

(** Whether some node of the plan is a [Sort]. *)
Fixpoint containsSort (n : Node) : bool :=
  match n with
  | Sort _ _ => true
  | Project _ c | Filter _ c | Distinct c | OrderedDistinct c
  | TableAlias _ c | SubqueryAlias _ c => containsSort c
  | CrossJoin l r => containsSort l || containsSort r
  | UnresolvedTable _ | ResolvedTable _ | ShowTables _ | CreateTable _ _ _
  | PushdownProjectionTable _ _
  | PushdownProjectionAndFiltersTable _ _ _ => false
  end.

(** The field accessor [resolve_star] builds for column [c] at
    position [i]: the type, name and nullability of the column, and no
    table. *)
Definition starField (i : nat) (c : Column) : Expression :=
  GetField (Z.of_nat i) (Type_ c) "" (Name c) (Nullable c).

(** The field accessor bound to column [c] at position [i], with the
    column's source as its table. *)
Definition fieldOf (i : nat) (c : Column) : Expression :=
  GetField (Z.of_nat i) (Type_ c) (Source c) (Name c) (Nullable c).

(** A node with its database slot set to [db]. *)
Definition withDatabase (db : gitbase.Database) (n : Node) : Node :=
  match n with
  | ShowTables _ => ShowTables (Some db)
  | CreateTable _ name schema => CreateTable (Some db) name schema
  | _ => n
  end.

Definition introspects (n : Node) : bool :=
  match n with
  | ShowTables _ | CreateTable _ _ _ => true
  | _ => false
  end.


(** The column index of [qualifyColumns] once the tables of [scope],
    each given with its schema, were indexed in that order. *)
Definition indexAll (scope : list (string * list Column))
  : gmap string (list string) :=
  foldl (λ ci ts, indexCols ts.1 ts.2 ci) ∅ scope.

(** What the visit of a node brings into scope for [qualifyColumns]: a
    bare table, or an alias of something that is not a table, comes into
    scope under its name, with its schema.  An alias of a table only
    gives the table a second name. *)
Definition declares `{!NodeSchema} (m : Node) : list (string * list Column) :=
  match m with
  | TableAlias name child =>
      match asTable child with
      | Some _ => []
      | None => [(name, Schema m)]
      end
  | _ =>
      match asTable m with
      | Some name => [(name, Schema m)]
      | None => []
      end
  end.

(** The tables a whole plan brings into scope, in the order the
    transform-up meets them: the children from left to right, then the
    node.  [n] is the plan before the rule and [n'] the plan after it; a
    node is visited over its rewritten children, so an alias comes into
    scope with the schema it has over its rewritten child. *)
Fixpoint inScope `{!NodeSchema} (n n' : Node) : list (string * list Column) :=
  match n, n' with
  | Project _ c, Project _ c' | Filter _ c, Filter _ c'
  | Sort _ c, Sort _ c' | Distinct c, Distinct c'
  | OrderedDistinct c, OrderedDistinct c' => inScope c c'
  | CrossJoin l r, CrossJoin l' r' => inScope l l' ++ inScope r r'
  | TableAlias _ c, TableAlias _ c'
  | SubqueryAlias _ c, SubqueryAlias _ c' => inScope c c' ++ declares n'
  | _, _ => declares n
  end.

(** The tables of [scope] that have a column named [c]: one mention for
    every such column, in the order of [scope]; and the distinct ones,
    each at its first mention. *)
Definition mentions (c : string) (scope : list (string * list Column))
  : list string :=
  ts ← scope; col ← ts.2; if decide (Name col = c) then [ts.1] else [].

Definition tablesWith (c : string) (scope : list (string * list Column))
  : list string :=
  dedupStrings (mentions c scope).

(** The binding of one column reference against the row layout [S]:
    the position and descriptor of the first column of [S] named [c]
    whose source is [t]. *)
Definition bindColumn (S : list Column) (e : Expression) : result Expression :=
  match e with
  | UnresolvedColumn t c =>
      match list_find (λ col, Name col = c ∧ Source col = t) S with
      | Some (i, col) => Ok (fieldOf i col)
      | None => Err (ErrColumnTableNotFound t c)
      end
  | _ => Ok e
  end.


(** The columns of [S] paired with their positions, counted from [k]. *)
Fixpoint columnInfos (k : nat) (S : list Column) : list columnInfo :=
  match S with
  | [] => []
  | c :: S' => mkColumnInfo (Z.of_nat k) c :: columnInfos (Datatypes.S k) S'
  end.

(** [colMap] holds, under every name, the columns of [S] of that name
    with their positions, in order, and no entry for a name [S] lacks. *)
Definition mapsSchema (colMap : gmap string (list columnInfo))
    (S : list Column) : Prop :=
  ∀ c, colMap !! c =
       match filter (λ ci, Name (col ci) = c) (columnInfos 0 S) with
       | [] => None
       | ci :: cis => Some (ci :: cis)
       end.


(** The names of the [UnresolvedTable] nodes of a plan, in the order
    the traversal meets them. *)
Fixpoint unresolvedTables (n : Node) : list string :=
  match n with
  | UnresolvedTable name => [name]
  | Project _ c | Filter _ c | Sort _ c | Distinct c | OrderedDistinct c
  | TableAlias _ c | SubqueryAlias _ c => unresolvedTables c
  | CrossJoin l r => unresolvedTables l ++ unresolvedTables r
  | ResolvedTable _ | ShowTables _ | CreateTable _ _ _
  | PushdownProjectionTable _ _
  | PushdownProjectionAndFiltersTable _ _ _ => []
  end.

(** The plan with every [UnresolvedTable] that [lookup] knows replaced
    by the table it gives. *)
Fixpoint bindTables (lookup : string → result plan.Table) (n : Node) : Node :=
  match n with
  | UnresolvedTable name =>
      match lookup name with
      | Ok t => ResolvedTable t
      | Err _ => n
      end
  | Project exprs c => Project exprs (bindTables lookup c)
  | Filter e c => Filter e (bindTables lookup c)
  | Sort fields c => Sort fields (bindTables lookup c)
  | Distinct c => Distinct (bindTables lookup c)
  | OrderedDistinct c => OrderedDistinct (bindTables lookup c)
  | CrossJoin l r => CrossJoin (bindTables lookup l) (bindTables lookup r)
  | TableAlias name c => TableAlias name (bindTables lookup c)
  | SubqueryAlias name c => SubqueryAlias name (bindTables lookup c)
  | ResolvedTable _ | ShowTables _ | CreateTable _ _ _
  | PushdownProjectionTable _ _
  | PushdownProjectionAndFiltersTable _ _ _ => n
  end.

(** Whether some node of the plan is a [SubqueryAlias]. *)
Fixpoint containsSubquery (n : Node) : bool :=
  match n with
  | SubqueryAlias _ _ => true
  | Project _ c | Filter _ c | Sort _ c | Distinct c | OrderedDistinct c
  | TableAlias _ c => containsSubquery c
  | CrossJoin l r => containsSubquery l || containsSubquery r
  | UnresolvedTable _ | ResolvedTable _ | ShowTables _ | CreateTable _ _ _
  | PushdownProjectionTable _ _
  | PushdownProjectionAndFiltersTable _ _ _ => false
  end.

(** Whether some table of the plan offers a pushdown interface. *)
Fixpoint containsPushdownTable (n : Node) : bool :=
  match n with
  | ResolvedTable t =>
      match tCap t with NoPushdown => false | _ => true end
  | Project _ c | Filter _ c | Sort _ c | Distinct c | OrderedDistinct c
  | TableAlias _ c | SubqueryAlias _ c => containsPushdownTable c
  | CrossJoin l r => containsPushdownTable l || containsPushdownTable r
  | UnresolvedTable _ | ShowTables _ | CreateTable _ _ _
  | PushdownProjectionTable _ _
  | PushdownProjectionAndFiltersTable _ _ _ => false
  end.

(** The [GetField] sub-expressions of an expression, in the order the
    traversal meets them. *)
Fixpoint getFields (e : Expression) : list Expression :=
  match e with
  | GetField _ _ _ _ _ => [e]
  | UnresolvedFunction _ args | FunctionCall _ args =>
      concat (map getFields args)
  | Not c => getFields c
  | And l r | Or l r | Comparison _ l r | Arithmetic _ l r =>
      getFields l ++ getFields r
  | UnresolvedColumn _ _ | Star | Literal _ _ => []
  end.

(** A field accessor whose index is the position, in [S], of the first
    column with the accessor's name. *)
Definition pointsInto (S : list Column) (e : Expression) : Prop :=
  match e with
  | GetField i _ _ name _ => ∃ j, i = Z.of_nat j ∧ columnIndex S name j
  | _ => True
  end.

(** Every table the column index of [qualifyColumns] lists is a
    registered table. *)
Definition indexRegistered (st : qualifyState) : Prop :=
  ∀ c t, t ∈ default [] (colIndex st !! c) → is_Some (tables st !! t).

(** The name and the table of a field accessor. *)
Definition fieldName (e : Expression) : string :=
  match e with
  | GetField _ _ _ name _ => name
  | _ => ""
  end.

Definition fieldTable (e : Expression) : option string :=
  match e with
  | GetField _ _ table _ _ => Some table
  | _ => None
  end.

(** The two lists the first pass of [pushdown] keeps per table go
    together: the names are those of the expressions, in order, the
    expressions are field accessors of that table, no name is listed
    twice, and the set of pairs seen holds exactly the listed ones. *)
Definition usedAligned (st : usedColumns) : Prop :=
  ∀ t,
    default [] (fieldsByTable st !! t)
      = fieldName <$> default [] (exprsByTable st !! t) ∧
    Forall (λ e, fieldTable e = Some t) (default [] (exprsByTable st !! t)) ∧
    NoDup (default [] (fieldsByTable st !! t)) ∧
    ∀ name, (t, name) ∈ tableFields st ↔
            name ∈ default [] (fieldsByTable st !! t).


(** The expressions a node holds itself. *)
Definition nodeExpressions (n : Node) : list Expression :=
  match n with
  | Project exprs _ => exprs
  | Filter e _ => [e]
  | Sort fields _ => sfColumn <$> fields
  | PushdownProjectionAndFiltersTable cols handled _ => cols ++ handled
  | _ => []
  end.

(** The field accessors of the expressions of all the nodes of a plan. *)
Fixpoint planFields (n : Node) : list Expression :=
  concat (getFields <$> nodeExpressions n) ++
  match n with
  | Project _ c | Filter _ c | Sort _ c | Distinct c | OrderedDistinct c
  | TableAlias _ c | SubqueryAlias _ c => planFields c
  | CrossJoin l r => planFields l ++ planFields r
  | UnresolvedTable _ | ResolvedTable _ | ShowTables _ | CreateTable _ _ _
  | PushdownProjectionTable _ _
  | PushdownProjectionAndFiltersTable _ _ _ => []
  end.

(** The first pass of [pushdown] has met the column a field accessor
    reads. *)
Definition fieldSeen (st : usedColumns) (e : Expression) : Prop :=
  match e with
  | GetField _ _ table name _ => (table, name) ∈ tableFields st
  | _ => True
  end.

(** What a visit of the first pass that takes the variables from [st] to
    [st'] establishes for the field accessors [fs] it went through:
    nothing seen is forgotten, and the accessors have been seen. *)
Definition collected (st st' : usedColumns) (fs : list Expression) : Prop :=
  tableFields st ⊆ tableFields st' ∧ Forall (fieldSeen st') fs.

End spec.
Export spec.

(** ** A catalog and plans for the worked examples *)

Module examples.

(** A schema assignment for the examples: a table, wrapped or not,
    reports its declared schema, a join the concatenation of its
    children's, and the operators over one child pass their child's
    through.  The examples never ask for the schema of a projection. *)
#[export] Instance exampleSchema : NodeSchema :=
  fix schema (n : Node) : list Column :=
    match n with
    | ResolvedTable t | PushdownProjectionTable _ t
    | PushdownProjectionAndFiltersTable _ _ t => tSchema t
    | CrossJoin l r => schema l ++ schema r
    | Filter _ c | Sort _ c | Distinct c | OrderedDistinct c
    | TableAlias _ c | SubqueryAlias _ c => schema c
    | Project _ _ | UnresolvedTable _ | ShowTables _ | CreateTable _ _ _ => []
    end.

Definition refs : plan.Table :=
  mkTable "refs"
    [ mkColumn "name" Text "refs" false; mkColumn "hash" Text "refs" false ]
    NoPushdown.

Definition remotes : plan.Table :=
  mkTable "remotes"
    [ mkColumn "name" Text "remotes" false;
      mkColumn "url" Text "remotes" false ]
    NoPushdown.

(** A [commits] scan that takes over the filters on [hash]. *)
Definition onHash (e : Expression) : bool :=
  match e with
  | Comparison OpEq (GetField _ _ _ "hash" _) (Literal _ _) => true
  | _ => false
  end.

Definition commits : plan.Table :=
  mkTable "commits"
    [ mkColumn "hash" Text "commits" false;
      mkColumn "author" Text "commits" false ]
    (ProjectionAndFiltersPushdown (List.filter onHash)).

(** The conditions [hash = 'abc'] and [author = 'x'] on [commits], the
    column read at position [i]. *)
Definition hashIs (i : Z) : Expression :=
  Comparison OpEq (GetField i Text "commits" "hash" false)
             (Literal (VText "abc") Text).

Definition authorIs (i : Z) : Expression :=
  Comparison OpEq (GetField i Text "commits" "author" false)
             (Literal (VText "x") Text).

(** A catalog that knows the database [gitbase] only. *)
Definition catalog : sqlCatalog :=
  mkCatalog
    (λ name, if decide (name = "gitbase") then Ok (NewDatabase name)
             else Err (ErrDatabaseNotFound name))
    (λ db name,
       if decide (name = "refs") then Ok refs
       else if decide (name = "remotes") then Ok remotes
       else if decide (name = "commits") then Ok commits
       else Err (ErrTableNotFound name)).

Definition inGitbase : Analyzer := mkAnalyzer catalog "gitbase".

(** An analyzer whose current database the catalog does not know. *)
Definition inNowhere : Analyzer := mkAnalyzer catalog "nowhere".

End examples.

(** * Properties *)

(** ** Expressions and the error monad *)

Section expression_facts.

(** Induction that also covers the argument lists. *)
Lemma Expression_ind' (P : Expression → Prop) :
  (∀ t n, P (UnresolvedColumn t n)) →
  (∀ n args, Forall P args → P (UnresolvedFunction n args)) →
  (∀ i ty t n nl, P (GetField i ty t n nl)) →
  P Star →
  (∀ v ty, P (Literal v ty)) →
  (∀ c, P c → P (Not c)) →
  (∀ l r, P l → P r → P (And l r)) →
  (∀ l r, P l → P r → P (Or l r)) →
  (∀ op l r, P l → P r → P (Comparison op l r)) →
  (∀ op l r, P l → P r → P (Arithmetic op l r)) →
  (∀ n args, Forall P args → P (FunctionCall n args)) →
  ∀ e, P e.
Proof.
  intros HUC HUF HGF HS HL HN HA HO HC HAr HF.
  fix IH 1. intros [t n|n args|i ty t n nl| |v ty|c|l r|l r|op l r|op l r|n args].
  - apply HUC.
  - apply HUF. induction args as [|a args IHargs]; constructor; [apply IH|exact IHargs].
  - apply HGF.
  - apply HS.
  - apply HL.
  - apply HN, IH.
  - apply HA; apply IH.
  - apply HO; apply IH.
  - apply HC; apply IH.
  - apply HAr; apply IH.
  - apply HF. induction args as [|a args IHargs]; constructor; [apply IH|exact IHargs].
Qed.

Lemma bind_Ok {A B} (m : result A) (k : A → result B) b :
  m ≫= k = Ok b ↔ ∃ a, m = Ok a ∧ k a = Ok b.
Proof.
  unfold mbind, result_bind. destruct m as [a|e]; simpl; split.
  - eauto.
  - by intros (a' & [= ->] & ?).
  - done.
  - by intros (a' & ? & ?).
Qed.

Lemma bind_Err {A B} (m : result A) (k : A → result B) e :
  m ≫= k = Err e ↔ m = Err e ∨ ∃ a, m = Ok a ∧ k a = Err e.
Proof.
  unfold mbind, result_bind. destruct m as [a|e']; simpl; split.
  - eauto.
  - by intros [?|(a' & [= ->] & ?)].
  - intros [= <-]; eauto.
  - by intros [[= ->]|(a' & ? & ?)].
Qed.

Lemma mapM_Ok {A B} (f : A → result B) l l' :
  mapM f l = Ok l' ↔ Forall2 (λ x y, f x = Ok y) l l'.
Proof.
  revert l'. induction l as [|x l IH]; intros l'; simpl.
  - split; [intros [= <-]; constructor | by inversion 1].
  - rewrite bind_Ok. split.
    + intros (y & Hy & Hk). apply bind_Ok in Hk as (k & Hk & [= <-]).
      constructor; [done | by apply IH].
    + inversion 1 as [|? y ? k Hy Hk]; subst. exists y. split; [done|].
      apply bind_Ok. exists k. split; [by apply IH | done].
Qed.

Lemma mapM_Err {A B} (f : A → result B) l e :
  mapM f l = Err e → ∃ x, x ∈ l ∧ f x = Err e.
Proof.
  induction l as [|x l IH]; simpl; [done|].
  rewrite bind_Err. intros [Hx|(y & Hy & Hk)].
  - exists x. split; [left | done].
  - apply bind_Err in Hk as [Hk|(k & _ & ?)]; [|done].
    destruct (IH Hk) as (z & ? & ?). exists z. split; [by right | done].
Qed.

Lemma mapM_Ok_or_Err {A B} (f : A → result B) l :
  (∃ l', mapM f l = Ok l') ∨ (∃ e, mapM f l = Err e).
Proof. destruct (mapM f l); eauto. Qed.

End expression_facts.

(** ** Field-index fixup *)

Section fixFieldIndexes_facts.

Variable S : list Column.

Lemma list_find_columnIndex n j c :
  list_find (λ col, n = Name col) S = Some (j, c) → columnIndex S n j.
Proof.
  intros (Hj & Hn & Hfirst)%list_find_Some. split; [by exists c|].
  intros k c' Hk Hc'. destruct (decide (j ≤ k)%nat) as [|Hlt]; [done|].
  exfalso. apply (Hfirst k c'); [done | lia | done].
Qed.

Lemma columnIndex_list_find n j :
  columnIndex S n j → ∃ c, list_find (λ col, n = Name col) S = Some (j, c).
Proof.
  intros [(c & Hj & Hn) Hfirst]. exists c. apply list_find_Some.
  split_and!; [done..|].
  intros k c' Hk Hlt Hc'. specialize (Hfirst k c' Hk (eq_sym Hc')). lia.
Qed.

Lemma list_find_name_None n :
  list_find (λ col, n = Name col) S = None ↔ n ∉ Name <$> S.
Proof.
  rewrite list_find_None, Forall_forall. split.
  - intros H (c & -> & Hc)%list_elem_of_fmap. by apply (H c).
  - intros H c Hc ->. apply H, list_elem_of_fmap. eauto.
Qed.

Abbreviation missing := (filter (λ n : string, n ∉ Name <$> S)).

Lemma missing_app_nil (l k : list string) :
  missing l = [] → missing (l ++ k) = missing k.
Proof. intros H. by rewrite filter_app, H. Qed.

Lemma missing_app_head (l k : list string) n :
  head (missing l) = Some n → head (missing (l ++ k)) = Some n.
Proof. rewrite filter_app. by destruct (filter _ l). Qed.

Lemma fixFieldIndexes_args args :
  Forall (λ e, fixOutcome S e (fixFieldIndexes S e)) args →
  match mapM (fixFieldIndexes S) args with
  | Ok args' =>
      Forall2 (Reindexed S) args args' ∧
      missing (concat (map fieldNames args)) = []
  | Err err =>
      ∃ n, err = ErrFieldMissing n ∧
           head (missing (concat (map fieldNames args))) = Some n
  end.
Proof.
  induction 1 as [|e args He _ IH]; simpl; [by split; constructor|].
  unfold mbind, result_bind at 1.
  destruct (fixFieldIndexes S e) as [e'|err]; simpl in He.
  - destruct He as [He Hnil]. rewrite (missing_app_nil _ _ Hnil).
    unfold mbind, result_bind at 1.
    destruct (mapM (fixFieldIndexes S) args) as [args'|err]; simpl.
    + destruct IH. split; [by constructor | done].
    + done.
  - destruct He as (n & -> & Hn). exists n.
    split; [done | by apply missing_app_head].
Qed.

(** The two-children cases of the induction below are all alike. *)
Local Ltac binary_case l r IHl IHr :=
  unfold fixOutcome, fixFieldIndexes, missingFields in *; simpl;
  unfold mbind, result_bind at 1;
  destruct (expression.TransformUp _ l) as [?|?]; simpl in *;
  [ destruct IHl as [? Hnil]; rewrite (missing_app_nil _ _ Hnil);
    unfold mbind, result_bind at 1;
    destruct (expression.TransformUp _ r) as [?|?]; simpl in *;
    [ destruct IHr; split; [by constructor | done] | done ]
  | destruct IHl as (n & -> & ?); exists n;
    split; [done | by apply missing_app_head] ].

Local Ltac args_case args IH :=
  apply fixFieldIndexes_args in IH;
  unfold fixOutcome, fixFieldIndexes, missingFields in *; simpl;
  unfold mbind, result_bind at 1;
  destruct (mapM _ args) as [?|?]; simpl; [|done];
  destruct IH; split; [by constructor | done].

Lemma fixFieldIndexes_outcome e : fixOutcome S e (fixFieldIndexes S e).
Proof.
  induction e as [t n|n args IH|i ty t n nl| |v ty|c IH|l r IHl IHr|l r IHl IHr
                 |op l r IHl IHr|op l r IHl IHr|n args IH]
    using Expression_ind'.
  - split; [constructor | done].
  - args_case args IH.
  - unfold fixFieldIndexes, missingFields; simpl.
    destruct (list_find _ S) as [[j c]|] eqn:Hfind; simpl.
    + split; [constructor; by eapply list_find_columnIndex|].
      apply list_find_Some in Hfind as (Hj & -> & _).
      unfold missingFields; simpl.
      rewrite filter_cons_False; [done|].
      intros Hnot. apply Hnot, list_elem_of_fmap. exists c.
      split; [done | by eapply list_elem_of_lookup_2].
    + exists n. split; [done|].
      apply list_find_name_None in Hfind.
      unfold missingFields; simpl.
      by rewrite filter_cons_True.
  - split; [constructor | done].
  - split; [constructor | done].
  - unfold fixOutcome, fixFieldIndexes, missingFields in *; simpl.
    unfold mbind, result_bind at 1.
    destruct (expression.TransformUp _ c) as [c'|err]; simpl in *; [|done].
    destruct IH. split; [by constructor | done].
  - binary_case l r IHl IHr.
  - binary_case l r IHl IHr.
  - binary_case l r IHl IHr.
  - binary_case l r IHl IHr.
  - args_case args IH.
Qed.

Lemma fixFieldIndexes_complete_args args args' :
  Forall (λ e, ∀ e', Reindexed S e e' → fixFieldIndexes S e = Ok e') args →
  Forall2 (Reindexed S) args args' →
  mapM (fixFieldIndexes S) args = Ok args'.
Proof.
  intros HP H2. apply mapM_Ok. induction H2 as [|e e' args args' He _ IH].
  - constructor.
  - inversion HP; subst. constructor; auto.
Qed.

Lemma fixFieldIndexes_complete e e' :
  Reindexed S e e' → fixFieldIndexes S e = Ok e'.
Proof.
  revert e'.
  induction e as [t n|n args IH|i ty t n nl| |v ty|c IH|l r IHl IHr|l r IHl IHr
                 |op l r IHl IHr|op l r IHl IHr|n args IH]
    using Expression_ind';
    intros e' Hre; inversion Hre; subst; try done.
  - unfold fixFieldIndexes in *; simpl.
    by erewrite fixFieldIndexes_complete_args.
  - unfold fixFieldIndexes; simpl.
    match goal with H : columnIndex _ _ _ |- _ =>
      apply columnIndex_list_find in H as (c & ->) end.
    done.
  - unfold fixFieldIndexes in *; simpl. by erewrite IH.
  - unfold fixFieldIndexes in *; simpl. by erewrite IHl, IHr.
  - unfold fixFieldIndexes in *; simpl. by erewrite IHl, IHr.
  - unfold fixFieldIndexes in *; simpl. by erewrite IHl, IHr.
  - unfold fixFieldIndexes in *; simpl. by erewrite IHl, IHr.
  - unfold fixFieldIndexes in *; simpl.
    by erewrite fixFieldIndexes_complete_args.
Qed.

End fixFieldIndexes_facts.

(** C5.  For every target schema [S] and expression [e],
    [fixFieldIndexes S e] succeeds with [e'] exactly when [e'] is [e] with
    every [GetField] named [n] given the index of the column named [n] in
    [S], its type, table, name and nullability kept, and nothing else
    changed.  It fails with a [FieldMissing] error exactly when some
    [GetField] inside [e] names a column that does not occur in [S]; the
    name reported is that of the first such [GetField] the traversal
    meets. *)
Theorem fixFieldIndexes_reindexes (S : list Column) (e : Expression) :
  (∀ e', fixFieldIndexes S e = Ok e' ↔ Reindexed S e e') ∧
  ((∃ n, fixFieldIndexes S e = Err (ErrFieldMissing n)) ↔
   (∃ n, n ∈ fieldNames e ∧ n ∉ Name <$> S)) ∧
  (∀ err, fixFieldIndexes S e = Err err ↔
          ∃ n, head (missingFields S e) = Some n ∧ err = ErrFieldMissing n).
Proof.
  pose proof (fixFieldIndexes_outcome S e) as Hout.
  split_and!.
  - intros e'. split; [|apply fixFieldIndexes_complete].
    intros Heq. rewrite Heq in Hout. by destruct Hout.
  - split.
    + intros (n & Heq). rewrite Heq in Hout.
      destruct Hout as (n' & [= <-] & Hhead).
      exists n. apply head_Some_elem_of in Hhead.
      by apply list_elem_of_filter in Hhead as [? ?].
    + intros (n & Hin & Hnot).
      destruct (fixFieldIndexes S e) as [e'|err]; simpl in Hout.
      * destruct Hout as [_ Hnil].
        assert (n ∈ missingFields S e) as Hm
          by (by apply list_elem_of_filter).
        rewrite Hnil in Hm. by apply elem_of_nil in Hm.
      * destruct Hout as (n' & -> & _). eauto.
  - intros err.
    destruct (fixFieldIndexes S e) as [e'|err']; simpl in Hout.
    + destruct Hout as [_ Hnil]. rewrite Hnil. split; [done|].
      by intros (n & ? & _).
    + destruct Hout as (n & -> & Hhead). rewrite Hhead. split.
      * intros [= <-]. eauto.
      * by intros (n' & [= <-] & ->).
Qed.

(** ** The rule list *)

(** C6.  The default rule list has exactly nine rules, in this order:
    resolve_subqueries, resolve_tables, qualify_columns, resolve_columns,
    resolve_database, resolve_star, resolve_functions, pushdown,
    optimize_distinct, each name paired with the rule function of that
    name. *)
Theorem DefaultRules_order :
  length DefaultRules = 9%nat ∧
  RuleName <$> DefaultRules =
    [ "resolve_subqueries"; "resolve_tables"; "qualify_columns";
      "resolve_columns"; "resolve_database"; "resolve_star";
      "resolve_functions"; "pushdown"; "optimize_distinct" ] ∧
  Apply <$> DefaultRules =
    [ fnResolveSubqueries; fnResolveTables; fnQualifyColumns; fnResolveColumns;
      fnResolveDatabase; fnResolveStar; fnResolveFunctions; fnPushdown;
      fnOptimizeDistinct ].
Proof. by split_and!. Qed.

(** ** [optimizeDistinct] *)

Section optimizeDistinct_facts.

(** The scan visits every node: the flag ends up set exactly when it
    was set before or the plan contains a [Sort]; the plan comes back
    as it was. *)
Lemma checkSorted_scan (n : Node) (isSorted : bool) :
  TransformUp checkSorted n isSorted = (isSorted || containsSort n, Ok n).
Proof.
  revert isSorted.
  induction n as [name|t|exprs c IH|e c IH|fields c IH|c IH|c IH|l IHl r IHr
                 |name c IH|name c IH|db|db name schema|cols t|cols handled t];
    intros isSorted; simpl;
    unfold mbind, St_bind, checkSorted; simpl;
    rewrite ?IH, ?IHl, ?IHr; simpl;
    rewrite ?orb_false_r, ?orb_true_r, ?orb_assoc; done.
Qed.

Lemma containsSort_InTree (n : Node) :
  containsSort n = true ↔ ∃ m fields c, InTree m n ∧ m = Sort fields c.
Proof.
  split.
  - induction n; simpl; intros Hs; try done;
      try (destruct (IHn Hs) as (m & fs & c & Hin & ->);
           exists (Sort fs c), fs, c; split; [|done];
           eapply InTree_child; [|done]; simpl; by left).
    + eexists _, _, _. split; [apply InTree_root | done].
    + apply orb_true_iff in Hs as [Hs|Hs].
      * destruct (IHn1 Hs) as (m & fs & c & Hin & ->).
        exists (Sort fs c), fs, c; split; [|done].
        eapply InTree_child; [|done]; simpl; by left.
      * destruct (IHn2 Hs) as (m & fs & c & Hin & ->).
        exists (Sort fs c), fs, c; split; [|done].
        eapply InTree_child; [|done]; simpl; right; by left.
  - intros (m & fs & c & Hin & Hm).
    induction Hin as [n|m c' n Hc _ IH]; [by subst|].
    specialize (IH Hm).
    destruct n; simpl in Hc |- *; try done;
      repeat match goal with
             | H : _ ∈ [] |- _ => by apply elem_of_nil in H
             | H : _ ∈ _ :: _ |- _ => apply elem_of_cons in H as [->|H]
             end;
      rewrite ?IH, ?orb_true_r; done.
Qed.

End optimizeDistinct_facts.

Example optimizeDistinct_over_sort :
  optimizeDistinct examples.inGitbase
    (Distinct (Sort [mkSortField (GetField 1 Text "refs" "hash" false) Ascending]
                 (Project [Star] (ResolvedTable examples.refs)))) =
  Ok (OrderedDistinct
        (Sort [mkSortField (GetField 1 Text "refs" "hash" false) Ascending]
           (Project [Star] (ResolvedTable examples.refs)))) ∧
  optimizeDistinct examples.inGitbase
    (Distinct (Project [Star] (ResolvedTable examples.refs))) =
  Ok (Distinct (Project [Star] (ResolvedTable examples.refs))).
Proof. split; reflexivity. Qed.

(** C7.  For every plan [P], [optimizeDistinct] returns
    [OrderedDistinct child] when [P] is [Distinct child] and some node of
    the plan rooted at [P], at any depth, is a [Sort]; the child is the
    one [P] had.  In every other case it returns [P] unchanged.  It never
    fails. *)
Theorem optimizeDistinct_ordered (a : Analyzer) (P : Node) :
  optimizeDistinct a P =
    Ok (match P with
        | Distinct child =>
            if containsSort P then OrderedDistinct child else P
        | _ => P
        end) ∧
  (containsSort P = true ↔ ∃ m fields c, InTree m P ∧ m = Sort fields c).
Proof.
  split; [|apply containsSort_InTree].
  destruct P; try done.
  unfold optimizeDistinct. rewrite checkSorted_scan. simpl.
  by destruct (containsSort P).
Qed.

(** ** [resolveStar] *)

Section resolveStar_facts.

Context `{!NodeSchema}.

(** The callback never fails, so neither does the traversal. *)
Lemma resolveStar_node_total (n : Node) : ∃ n', resolveStar_node n = Ok n'.
Proof.
  unfold resolveStar_node. destruct (Resolved n); [eauto|].
  destruct n; eauto.
  destruct exprs as [|e [|]]; eauto. destruct e; eauto.
Qed.

Lemma resolveStar_total (n : Node) :
  ∃ n', TransformUp resolveStar_node n = Ok n'.
Proof.
  induction n as [name|t|exprs c IH|e c IH|fields c IH|c IH|c IH|l IHl r IHr
                 |name c IH|name c IH|db|db name schema|cols t|cols handled t];
    simpl; try apply resolveStar_node_total;
    try (destruct IH as [c' ->]; simpl; apply resolveStar_node_total).
  destruct IHl as [l' ->], IHr as [r' ->]; simpl.
  apply resolveStar_node_total.
Qed.

Lemma resolveStar_node_star (child : Node) :
  resolveStar_node (Project [Star] child) =
    Ok (Project (imap starField (Schema child)) child).
Proof. done. Qed.

End resolveStar_facts.

(** C4, as the code has it.  For every [Project] whose expression list
    is exactly [[Star]], the rule returns a [Project] over the rewritten
    child with one expression per column of that child's schema: with [n]
    columns there are exactly [n] expressions, and the [i]-th is a
    [GetField] with index [i] and the type, name and nullability of the
    [i]-th column.  Its table qualifier is empty: the source table of the
    column is not copied. *)
Theorem resolveStar_expands `{!NodeSchema} (a : Analyzer) (child : Node) :
  (∃ child' exprs,
     TransformUp resolveStar_node child = Ok child' ∧
     resolveStar a (Project [Star] child) = Ok (Project exprs child') ∧
     length exprs = length (Schema child') ∧
     ∀ i, exprs !! i = starField i <$> Schema child' !! i) ∧
  resolveStar_node (Project [Star] child) =
    Ok (Project (imap starField (Schema child)) child).
Proof.
  split; [|done].
  destruct (resolveStar_total child) as [child' Hchild].
  exists child', (imap starField (Schema child')). split_and!.
  - done.
  - unfold resolveStar. simpl. rewrite Hchild. done.
  - apply length_imap.
  - intros i. apply list_lookup_imap.
Qed.

Section resolveStar_example.

#[local] Existing Instance examples.exampleSchema.

(** The statement of C4 fails on its own example: star expansion over
    [refs] yields accessors with the empty table, not the table [refs]. *)
Lemma resolveStar_leaves_table_empty :
  resolveStar examples.inGitbase (Project [Star] (ResolvedTable examples.refs)) =
    Ok (Project [ GetField 0 Text "" "name" false;
                  GetField 1 Text "" "hash" false ]
                (ResolvedTable examples.refs)) ∧
  resolveStar examples.inGitbase (Project [Star] (ResolvedTable examples.refs)) ≠
    Ok (Project [ GetField 0 Text "refs" "name" false;
                  GetField 1 Text "refs" "hash" false ]
                (ResolvedTable examples.refs)) ∧
  Schema (ResolvedTable examples.refs) !! 0%nat =
    Some (mkColumn "name" Text "refs" false).
Proof. split_and!; [done | discriminate | done]. Qed.

End resolveStar_example.

(** ** [resolveDatabase] *)

(** C9.  [resolveDatabase] looks at the node it is handed and at nothing
    below it.  When that root is a [ShowTables] or a [CreateTable] it asks
    the catalog once for the current database, and either fills the
    root's database slot or returns the catalog's error with the store as
    it was.  For a root of any other kind the store is returned unchanged,
    so a [ShowTables] or [CreateTable] below the root keeps its empty
    slot; no error is raised and the catalog is not consulted. *)
Theorem resolveDatabase_root_only
    (a : Analyzer) (n : loc) (w : World) (P : Node) :
  heap w !! n = Some P →
  (resolveDatabase a n w).2.1 = n ∧
  if introspects P then
    lookups (resolveDatabase a n w).1 = lookups w ++ [CurrentDatabase a] ∧
    match Database (Catalog a) (CurrentDatabase a) with
    | Ok db =>
        (resolveDatabase a n w).2.2 = None ∧
        heap (resolveDatabase a n w).1 = <[n := withDatabase db P]> (heap w)
    | Err err =>
        (resolveDatabase a n w).2.2 = Some err ∧
        heap (resolveDatabase a n w).1 = heap w
    end
  else
    resolveDatabase a n w = (w, (n, None)).
Proof.
  intros HP. unfold resolveDatabase. rewrite HP.
  destruct P; simpl; try done;
    destruct (Database (Catalog a) (CurrentDatabase a)); done.
Qed.

(** A projection over a [ShowTables] whose slot is empty: nothing is
    attached and nothing fails, even under an analyzer whose current
    database is unknown to the catalog. *)
Lemma resolveDatabase_root_only_witness :
  heap (mkWorld {[ 1%positive := Project [Star] (ShowTables None) ]} [])
    !! 1%positive = Some (Project [Star] (ShowTables None)) ∧
  resolveDatabase examples.inNowhere 1%positive
    (mkWorld {[ 1%positive := Project [Star] (ShowTables None) ]} []) =
  (mkWorld {[ 1%positive := Project [Star] (ShowTables None) ]} [],
   (1%positive, None)).
Proof.
  split; [reflexivity|].
  exact (proj2 (resolveDatabase_root_only examples.inNowhere 1%positive
                  (mkWorld {[ 1%positive := Project [Star] (ShowTables None) ]} [])
                  (Project [Star] (ShowTables None)) eq_refl)).
Defined.




(** ** [pushdown]: the rewrite pass *)

Section pushdown_facts.

Context `{!NodeSchema}.

Variable fieldsByTable : gmap string (list string).
Variables exprsByTable filters : gmap string (list Expression).

(** The loop of [getUnhandledFilters] computes the list difference. *)
Lemma getUnhandledFilters_difference (all handled : list Expression) :
  getUnhandledFilters all handled = list_difference all handled.
Proof.
  unfold getUnhandledFilters.
  induction all as [|f all IH]; [done|]. simpl.
  destruct (decide_rel elem_of f handled) as [Hin|Hnot].
  - rewrite filter_cons_False; [done|].
    intros Hn. apply Hn, Exists_exists. eauto.
  - rewrite filter_cons_True; [by rewrite IH|].
    intros (h & Hh & ->)%Exists_exists. done.
Qed.

Lemma pushdownNode_Filter e child handledFilters :
  pushdownNode fieldsByTable exprsByTable filters (Filter e child)
               handledFilters =
  (handledFilters,
   Ok (match handledFilters with
       | [] => Filter e child
       | _ :: _ =>
           match list_difference (splitExpression e) handledFilters with
           | [] => child
           | u :: us => Filter (JoinAnd u us) child
           end
       end)).
Proof.
  unfold pushdownNode. destruct handledFilters as [|h hs]; [done|].
  rewrite getUnhandledFilters_difference.
  by destruct (list_difference _ _).
Qed.

Lemma pushdownNode_scan t HandledFilters handledFilters cols handled :
  tCap t = ProjectionAndFiltersPushdown HandledFilters →
  fixFieldIndexesOnExpressions (Schema (ResolvedTable t))
    (default [] (exprsByTable !! tName t)) = Ok cols →
  fixFieldIndexesOnExpressions (Schema (ResolvedTable t))
    (HandledFilters (default [] (filters !! tName t))) = Ok handled →
  pushdownNode fieldsByTable exprsByTable filters (ResolvedTable t)
               handledFilters =
  (handledFilters ++ HandledFilters (default [] (filters !! tName t)),
   Ok (PushdownProjectionAndFiltersTable cols handled t)).
Proof.
  intros Hcap Hcols Hhandled. unfold pushdownNode.
  by rewrite Hcap, Hcols, Hhandled.
Qed.

End pushdown_facts.

(** C3.  In the rewrite pass of [pushdown], a visit to [Filter e child]
    leaves the accumulated [handledFilters] as it is.  When that list is
    empty the filter is returned unchanged.  Otherwise, with [unhandled]
    the conjuncts of [e] that are structurally equal to no handled filter,
    in their order, the filter is replaced by [child] when [unhandled] is
    empty and by [Filter (And unhandled) child] when it is not. *)
Theorem pushdown_filter_rewrite `{!NodeSchema}
    (fieldsByTable : gmap string (list string))
    (exprsByTable filters : gmap string (list Expression))
    (e : Expression) (child : Node) (handledFilters : list Expression) :
  pushdownNode fieldsByTable exprsByTable filters (Filter e child)
               handledFilters =
    (handledFilters,
     Ok (match handledFilters with
         | [] => Filter e child
         | _ :: _ =>
             match list_difference (splitExpression e) handledFilters with
             | [] => child
             | u :: us => Filter (JoinAnd u us) child
             end
         end)) ∧
  (∀ c, c ∈ list_difference (splitExpression e) handledFilters ↔
        c ∈ splitExpression e ∧ c ∉ handledFilters).
Proof.
  split; [apply pushdownNode_Filter|].
  intros c. apply list_elem_of_difference.
Qed.

(** C10.  On a scan with projection and filters pushdown, the rewrite
    pass appends to [handledFilters] the expressions [HandledFilters]
    returned, as they are, and gives the wrapper copies of them (and of
    the used columns) re-indexed against the scan's own schema.  The
    [Filter] above the scan is therefore rewritten against the original
    expressions: its conjuncts are compared with what [HandledFilters]
    returned, not with the re-indexed copies in the wrapper. *)
Theorem pushdown_handled_are_originals `{!NodeSchema}
    (fieldsByTable : gmap string (list string))
    (exprsByTable filters : gmap string (list Expression))
    (t : plan.Table) (HandledFilters : list Expression → list Expression)
    (handledFilters cols handled : list Expression) :
  tCap t = ProjectionAndFiltersPushdown HandledFilters →
  fixFieldIndexesOnExpressions (Schema (ResolvedTable t))
    (default [] (exprsByTable !! tName t)) = Ok cols →
  fixFieldIndexesOnExpressions (Schema (ResolvedTable t))
    (HandledFilters (default [] (filters !! tName t))) = Ok handled →
  pushdownNode fieldsByTable exprsByTable filters (ResolvedTable t)
               handledFilters =
    (handledFilters ++ HandledFilters (default [] (filters !! tName t)),
     Ok (PushdownProjectionAndFiltersTable cols handled t)) ∧
  ∀ e,
    TransformUp (pushdownNode fieldsByTable exprsByTable filters)
                (Filter e (ResolvedTable t)) handledFilters =
      (handledFilters ++ HandledFilters (default [] (filters !! tName t)),
       Ok (match handledFilters
                 ++ HandledFilters (default [] (filters !! tName t)) with
           | [] => Filter e (PushdownProjectionAndFiltersTable cols handled t)
           | _ :: _ =>
               match list_difference (splitExpression e)
                       (handledFilters
                        ++ HandledFilters (default [] (filters !! tName t)))
               with
               | [] => PushdownProjectionAndFiltersTable cols handled t
               | u :: us =>
                   Filter (JoinAnd u us)
                          (PushdownProjectionAndFiltersTable cols handled t)
               end
           end)).
Proof.
  intros Hcap Hcols Hhandled.
  pose proof (pushdownNode_scan fieldsByTable exprsByTable filters t
                HandledFilters handledFilters cols handled Hcap Hcols Hhandled)
    as Hscan.
  split; [done|]. intros e.
  change (TransformUp (pushdownNode fieldsByTable exprsByTable filters)
            (Filter e (ResolvedTable t)) handledFilters)
    with (St_bind _ _ (λ c', pushdownNode fieldsByTable exprsByTable filters
                               (Filter e c'))
            (pushdownNode fieldsByTable exprsByTable filters (ResolvedTable t))
            handledFilters).
  unfold St_bind. rewrite Hscan. apply pushdownNode_Filter.
Qed.

Section pushdown_example.

#[local] Existing Instance examples.exampleSchema.

Import examples.

(** A filter over [commits] written against a row where [hash] and
    [author] sit at positions 5 and 6.  The scan takes over the
    condition on [hash]: the wrapper receives it with index 0, the
    accumulator keeps it with index 5, and it is the one with index 5 that
    the filter above loses. *)
Lemma pushdown_handled_are_originals_witness :
  tCap examples.commits =
    ProjectionAndFiltersPushdown (List.filter examples.onHash) ∧
  fixFieldIndexesOnExpressions (Schema (ResolvedTable examples.commits))
    (default []
       (({[ "commits" := [ GetField 5 Text "commits" "hash" false;
                           GetField 6 Text "commits" "author" false ] ]}
         : gmap string (list Expression)) !! tName examples.commits)) =
    Ok [ GetField 0 Text "commits" "hash" false;
         GetField 1 Text "commits" "author" false ] ∧
  fixFieldIndexesOnExpressions (Schema (ResolvedTable examples.commits))
    (List.filter examples.onHash
       (default []
          (({[ "commits" := [ hashIs 5; authorIs 6 ] ]}
            : gmap string (list Expression)) !! tName examples.commits))) =
    Ok [ hashIs 0 ] ∧
  TransformUp
    (pushdownNode ∅
       {[ "commits" := [ GetField 5 Text "commits" "hash" false;
                         GetField 6 Text "commits" "author" false ] ]}
       {[ "commits" := [ hashIs 5; authorIs 6 ] ]})
    (Filter (And (hashIs 5) (authorIs 6)) (ResolvedTable examples.commits)) [] =
  ([ hashIs 5 ],
   Ok (Filter (authorIs 6)
         (PushdownProjectionAndFiltersTable
            [ GetField 0 Text "commits" "hash" false;
              GetField 1 Text "commits" "author" false ]
            [ hashIs 0 ] examples.commits))).
Proof.
  split_and!; [reflexivity | vm_compute; reflexivity | vm_compute; reflexivity |].
  exact (proj2 (pushdown_handled_are_originals ∅
                  {[ "commits" := [ GetField 5 Text "commits" "hash" false;
                                    GetField 6 Text "commits" "author" false ] ]}
                  {[ "commits" := [ hashIs 5; authorIs 6 ] ]}
                  examples.commits (List.filter examples.onHash) []
                  [ GetField 0 Text "commits" "hash" false;
                    GetField 1 Text "commits" "author" false ]
                  [ hashIs 0 ] eq_refl eq_refl eq_refl)
               (And (hashIs 5) (authorIs 6))).
Defined.

(** The whole rule on the same plan, and on a condition across two
    tables, which no scan takes over. *)
Example pushdown_capable_scan :
  pushdown inGitbase
    (Filter (And (hashIs 5) (authorIs 6)) (ResolvedTable commits)) =
  Ok (Filter (authorIs 6)
        (PushdownProjectionAndFiltersTable
           [ GetField 0 Text "commits" "hash" false;
             GetField 1 Text "commits" "author" false ]
           [ hashIs 0 ] commits)).
Proof. vm_compute. reflexivity. Qed.

(** The columns are collected over the whole plan: under a [Distinct]
    the scan is wrapped with the columns the filter below reads. *)
Example pushdown_below_distinct :
  pushdown inGitbase
    (Distinct
       (Filter (And (hashIs 5) (authorIs 6)) (ResolvedTable commits))) =
  Ok (Distinct
        (Filter (authorIs 6)
           (PushdownProjectionAndFiltersTable
              [ GetField 0 Text "commits" "hash" false;
                GetField 1 Text "commits" "author" false ]
              [ hashIs 0 ] commits))).
Proof. vm_compute. reflexivity. Qed.

Example pushdown_cross_table :
  pushdown inGitbase
    (Filter (Comparison OpEq (GetField 1 Text "refs" "hash" false)
                             (GetField 2 Text "commits" "hash" false))
       (CrossJoin (ResolvedTable refs) (ResolvedTable commits))) =
  Ok (Filter (Comparison OpEq (GetField 1 Text "refs" "hash" false)
                               (GetField 2 Text "commits" "hash" false))
        (CrossJoin (ResolvedTable refs)
           (PushdownProjectionAndFiltersTable
              [ GetField 0 Text "commits" "hash" false ] [] commits))).
Proof. vm_compute. reflexivity. Qed.

(** A filter whose conjuncts were all taken over disappears; with
    nothing handled so far it stays as it is. *)
Example pushdown_filter_removed :
  pushdownNode ∅ ∅ ∅ (Filter (hashIs 5) (ResolvedTable refs)) [ hashIs 5 ] =
    ([ hashIs 5 ], Ok (ResolvedTable refs)) ∧
  pushdownNode ∅ ∅ ∅ (Filter (hashIs 5) (ResolvedTable refs)) [] =
    ([], Ok (Filter (hashIs 5) (ResolvedTable refs))).
Proof. split; vm_compute; reflexivity. Qed.

End pushdown_example.

(** ** [qualifyColumns] *)

Section qualifyColumns_facts.

Lemma dedup_loop (l : list string) (seen : gset string) (result : list string) :
  (∀ x, x ∈ seen ↔ x ∈ result) → NoDup result →
  (∀ x, x ∈ (foldl dedupStep (seen, result) l).1 ↔
        x ∈ (foldl dedupStep (seen, result) l).2) ∧
  NoDup (foldl dedupStep (seen, result) l).2 ∧
  (∀ x, x ∈ (foldl dedupStep (seen, result) l).2 ↔ x ∈ result ∨ x ∈ l).
Proof.
  revert seen result.
  induction l as [|s l IH]; intros seen result Hseen Hnodup; simpl.
  - split_and!; [done..|]. intros x. rewrite elem_of_nil. tauto.
  - destruct (decide (s ∈ seen)) as [Hin|Hnot].
    + destruct (IH seen result Hseen Hnodup) as (H1 & H2 & H3).
      split_and!; [done..|]. intros x. rewrite H3, elem_of_cons.
      split; [tauto|]. intros [?|[->|?]]; auto. left. by apply Hseen.
    + destruct (IH ({[ s ]} ∪ seen) (result ++ [s])) as (H1 & H2 & H3).
      * intros x. rewrite elem_of_union, elem_of_singleton, elem_of_app,
          list_elem_of_singleton, Hseen. tauto.
      * apply NoDup_app. split_and!; [done| |apply NoDup_singleton].
        intros x Hx ->%list_elem_of_singleton. by apply Hnot, Hseen.
      * split_and!; [done..|]. intros x.
        rewrite H3, elem_of_app, list_elem_of_singleton, elem_of_cons. tauto.
Qed.

Lemma dedupStrings_spec (l : list string) :
  NoDup (dedupStrings l) ∧ ∀ x, x ∈ dedupStrings l ↔ x ∈ l.
Proof.
  destruct (dedup_loop l ∅ []) as (_ & Hnodup & Helem).
  - intros x. rewrite elem_of_nil. set_solver.
  - constructor.
  - split; [exact Hnodup|]. intros x.
    unfold dedupStrings. rewrite Helem, elem_of_nil. tauto.
Qed.

Lemma indexCols_elem (t : string) (schema : list Column)
    (ci : gmap string (list string)) (c x : string) :
  x ∈ default [] (indexCols t schema ci !! c) ↔
  x ∈ default [] (ci !! c) ∨ (x = t ∧ c ∈ Name <$> schema).
Proof.
  unfold indexCols. revert ci.
  induction schema as [|col schema IH]; intros ci; simpl.
  - rewrite elem_of_nil. tauto.
  - rewrite IH, elem_of_cons. destruct (decide (Name col = c)) as [<-|Hne].
    + rewrite lookup_insert_eq. simpl.
      rewrite elem_of_app, list_elem_of_singleton. tauto.
    + rewrite lookup_insert_ne by done. split; [tauto|].
      intros [?|[-> [?|?]]]; auto. congruence.
Qed.

Lemma indexAll_elem (scope : list (string * list Column)) (c x : string) :
  x ∈ default [] (indexAll scope !! c) ↔
  ∃ s, (x, s) ∈ scope ∧ c ∈ Name <$> s.
Proof.
  unfold indexAll.
  assert (∀ ci,
    x ∈ default [] (foldl (λ ci ts, indexCols ts.1 ts.2 ci) ci scope !! c) ↔
    x ∈ default [] (ci !! c) ∨ ∃ s, (x, s) ∈ scope ∧ c ∈ Name <$> s) as Hgen.
  { induction scope as [|[t s] scope IH]; intros ci; simpl.
    - split; [tauto|]. intros [?|(s & Hs & _)]; [done|].
      by apply elem_of_nil in Hs.
    - rewrite IH, indexCols_elem. split.
      + intros [[?|[-> ?]]|(s' & ? & ?)]; auto.
        * right. exists s. split; [left | done].
        * right. exists s'. split; [by right | done].
      + intros [?|(s' & [[= -> ->]|?]%elem_of_cons & ?)]; eauto. }
  rewrite Hgen, lookup_empty. simpl. rewrite elem_of_nil. tauto.
Qed.

End qualifyColumns_facts.

Lemma indexCols_lookup (t : string) (schema : list Column)
    (ci : gmap string (list string)) (c : string) :
  default [] (indexCols t schema ci !! c) =
  default [] (ci !! c) ++
  (col ← schema; if decide (Name col = c) then [t] else []).
Proof.
  unfold indexCols. revert ci.
  induction schema as [|col schema IH]; intros ci; simpl.
  - by rewrite app_nil_r.
  - rewrite IH. destruct (decide (Name col = c)) as [<-|Hne].
    + rewrite lookup_insert_eq. simpl. by rewrite <- app_assoc.
    + by rewrite lookup_insert_ne.
Qed.

(** The entry of the column index for [c] is the list of mentions. *)
Lemma indexAll_lookup (scope : list (string * list Column)) (c : string) :
  default [] (indexAll scope !! c) = mentions c scope.
Proof.
  unfold indexAll, mentions.
  assert (∀ ci,
    default [] (foldl (λ ci ts, indexCols ts.1 ts.2 ci) ci scope !! c) =
    default [] (ci !! c) ++
    (ts ← scope; col ← ts.2; if decide (Name col = c) then [ts.1] else []))
    as Hgen.
  { induction scope as [|[t s] scope IH]; intros ci; simpl.
    - by rewrite app_nil_r.
    - by rewrite IH, indexCols_lookup, <- app_assoc. }
  by rewrite Hgen, lookup_empty.
Qed.

Lemma tablesWith_spec (scope : list (string * list Column)) (c : string) :
  NoDup (tablesWith c scope) ∧
  ∀ t, t ∈ tablesWith c scope ↔ ∃ s, (t, s) ∈ scope ∧ c ∈ Name <$> s.
Proof.
  unfold tablesWith.
  destruct (dedupStrings_spec (mentions c scope)) as [Hnodup Helem].
  split; [done|].
  intros t. by rewrite Helem, <- indexAll_lookup, indexAll_elem.
Qed.

(** The callback on a reference without a qualifier, with the index of
    the tables of [scope]. *)
Lemma qualifyColumn_outcome (st : qualifyState)
    (scope : list (string * list Column)) (c : string) :
  colIndex st = indexAll scope →
  qualifyColumn st (UnresolvedColumn "" c) =
    match tablesWith c scope with
    | [] => Err (ErrColumnTableNotFound "" c)
    | [t] => Ok (UnresolvedColumn t c)
    | ts => Err (ErrAmbiguousColumnName c (String.concat ", " ts))
    end.
Proof.
  intros Hst. unfold qualifyColumn, tablesWith. simpl.
  rewrite Hst, indexAll_lookup.
  by destruct (dedupStrings _) as [|t [|t' ts]].
Qed.

(** Every update of [colIndex] is an [indexCols]: it indexes one more
    table. *)
Lemma indexAll_snoc (scope : list (string * list Column)) t s :
  indexAll (scope ++ [(t, s)]) = indexCols t s (indexAll scope).
Proof. unfold indexAll. by rewrite foldl_app. Qed.

Lemma recordNode_declares `{!NodeSchema} (m : Node) (st : qualifyState) scope :
  colIndex st = indexAll scope →
  colIndex (recordNode m st) = indexAll (scope ++ declares m).
Proof.
  intros Hst. unfold recordNode, declares.
  destruct m; simpl;
    repeat match goal with
           | |- context [match asTable ?c with _ => _ end] =>
               destruct (asTable c)
           end; simpl;
    rewrite ?app_nil_r, ?indexAll_snoc, ?Hst; done.
Qed.

(** A node whose expressions were rewritten keeps its kind, its
    children and its table. *)
Lemma TransformExpressionsUp_shape (f : Expression → result Expression)
    (m m' : Node) :
  TransformExpressionsUp f m = Ok m' →
  match m with
  | Project _ c => ∃ exprs', m' = Project exprs' c
  | Filter _ c => ∃ e', m' = Filter e' c
  | Sort _ c => ∃ fields', m' = Sort fields' c
  | PushdownProjectionAndFiltersTable _ _ t =>
      ∃ cols' handled', m' = PushdownProjectionAndFiltersTable cols' handled' t
  | _ => m' = m
  end.
Proof.
  destruct m; simpl; try (by intros [= <-]).
  - intros (exprs' & _ & [= <-])%bind_Ok. eauto.
  - intros (e' & _ & [= <-])%bind_Ok. eauto.
  - intros (fields' & _ & [= <-])%bind_Ok. eauto.
  - intros (cols' & _ & (handled' & _ & [= <-])%bind_Ok)%bind_Ok. eauto.
Qed.

(** The traversal of [qualifyColumns] leaves the index of the tables it
    had, followed by the tables the plan brings into scope. *)
Lemma qualifyColumns_inScope `{!NodeSchema} (n : Node) :
  ∀ st scope st' n',
    colIndex st = indexAll scope →
    TransformUp qualifyColumns_node n st = (st', Ok n') →
    colIndex st' = indexAll (scope ++ inScope n n').
Proof.
  assert (∀ m st scope st' m',
            colIndex st = indexAll scope →
            qualifyColumns_node m st = (st', Ok m') →
            colIndex st' = indexAll (scope ++ declares m) ∧
            TransformExpressionsUp (qualifyColumn st') m = Ok m') as Hnode.
  { intros m st scope st' m' Hst. unfold qualifyColumns_node.
    intros [= <- Hm']. split; [by apply recordNode_declares | done]. }
  induction n as [name|t|exprs c IH|e c IH|fields c IH|c IH|c IH|l IHl r IHr
                 |name c IH|name c IH|db|db name schema|cols t|cols handled t];
    intros st scope st' n' Hst; cbn -[qualifyColumns_node declares].
  all: try (intros Hrun; destruct (Hnode _ _ _ _ _ Hst Hrun) as [-> Hm'];
            by destruct n').
  all: unfold mbind; unfold St_bind at 1.
  all: try (destruct (TransformUp qualifyColumns_node c st)
              as [s1 [c'|err]] eqn:Hc; [|done];
            intros Hrun; specialize (IH _ _ _ _ Hst Hc);
            destruct (Hnode _ _ _ _ _ IH Hrun) as [-> Hm'];
            apply TransformExpressionsUp_shape in Hm';
            repeat match type of Hm' with
                   | ∃ _, _ => destruct Hm' as [? Hm']
                   end;
            subst n';
            cbn -[declares]; by rewrite ?app_nil_r, ?app_assoc).
  destruct (TransformUp qualifyColumns_node l st)
    as [s1 [l'|err]] eqn:Hl; [|done].
  unfold St_bind at 1.
  destruct (TransformUp qualifyColumns_node r s1)
    as [s2 [r'|err]] eqn:Hr; [|done].
  intros Hrun. specialize (IHl _ _ _ _ Hst Hl).
  specialize (IHr _ _ _ _ IHl Hr).
  destruct (Hnode _ _ _ _ _ IHr Hrun) as [-> Hm'].
  apply TransformExpressionsUp_shape in Hm'. subst n'.
  cbn -[declares]. by rewrite ?app_nil_r, ?app_assoc.
Qed.

(** C2.  When [qualifyColumns] rewrites a column reference with an empty
    table qualifier and name [c], the outcome is fixed by the distinct
    tables in scope whose schema has a column named [c].

    - Those tables form a duplicate-free list [tablesWith c scope].
    - The transform-up of the rule leaves the index of the tables it
      started with, followed by the tables the plan brings into scope.
    - When a node [m] is visited, the table it declares comes into scope
      first, and the callback run on its expressions then answers as
      follows: with no table it fails with [ColumnTableNotFound "" c],
      with exactly one it returns the reference qualified with that
      table, and with two or more it fails with [AmbiguousColumnName]
      for [c], listing those tables.
    - So the rule, run on the projection of the column over a plan
      [child], fails as the traversal of [child] does, or else gives one
      of the three outcomes by the tables [child] brings into scope. *)
Theorem qualifyColumns_unqualified `{!NodeSchema} (a : Analyzer) (c : string) :
  (∀ scope,
     NoDup (tablesWith c scope) ∧
     ∀ t, t ∈ tablesWith c scope ↔ ∃ s, (t, s) ∈ scope ∧ c ∈ Name <$> s) ∧
  (∀ n st scope st' n',
     colIndex st = indexAll scope →
     TransformUp qualifyColumns_node n st = (st', Ok n') →
     colIndex st' = indexAll (scope ++ inScope n n')) ∧
  (∀ m st scope,
     colIndex st = indexAll scope →
     (qualifyColumns_node m st).2 =
       TransformExpressionsUp (qualifyColumn (qualifyColumns_node m st).1) m ∧
     colIndex (qualifyColumns_node m st).1 = indexAll (scope ++ declares m) ∧
     qualifyColumn (qualifyColumns_node m st).1 (UnresolvedColumn "" c) =
       match tablesWith c (scope ++ declares m) with
       | [] => Err (ErrColumnTableNotFound "" c)
       | [t] => Ok (UnresolvedColumn t c)
       | ts => Err (ErrAmbiguousColumnName c (String.concat ", " ts))
       end) ∧
  (∀ child,
     qualifyColumns a (Project [UnresolvedColumn "" c] child) =
       match TransformUp qualifyColumns_node child qualifyInit with
       | (_, Err err) => Err err
       | (_, Ok child') =>
           match tablesWith c (inScope child child') with
           | [] => Err (ErrColumnTableNotFound "" c)
           | [t] => Ok (Project [UnresolvedColumn t c] child')
           | ts => Err (ErrAmbiguousColumnName c (String.concat ", " ts))
           end
       end).
Proof.
  split_and!.
  - intros scope. apply tablesWith_spec.
  - intros n. apply qualifyColumns_inScope.
  - intros m st scope Hst. unfold qualifyColumns_node. simpl.
    pose proof (recordNode_declares m st scope Hst) as Hrec.
    split_and!; [done | done | by apply qualifyColumn_outcome].
  - intros child. unfold qualifyColumns.
    cbn -[qualifyColumns_node]. unfold mbind; unfold St_bind at 1.
    destruct (TransformUp qualifyColumns_node child qualifyInit)
      as [s1 [child'|err]] eqn:Hchild; [|done].
    pose proof (qualifyColumns_inScope child qualifyInit [] s1 child'
                  eq_refl Hchild) as Hs1.
    unfold qualifyColumns_node. cbn -[qualifyColumn].
    rewrite (qualifyColumn_outcome s1 _ c Hs1). simpl.
    by destruct (tablesWith c (inScope child child')) as [|t [|t' ts]].
Qed.


Section qualifyColumns_example.

#[local] Existing Instance examples.exampleSchema.
Import examples.

(** Two joined tables that both have a column [name]. *)
Example qualifyColumns_ambiguous :
  qualifyColumns inGitbase
    (Project [UnresolvedColumn "" "name"]
       (CrossJoin (ResolvedTable refs) (ResolvedTable remotes))) =
  Err (ErrAmbiguousColumnName "name" "refs, remotes").
Proof. vm_compute. reflexivity. Qed.

Example qualifyColumns_unique :
  qualifyColumns inGitbase
    (Project [UnresolvedColumn "" "url"; UnresolvedColumn "" "hash"]
       (CrossJoin (ResolvedTable refs) (ResolvedTable remotes))) =
  Ok (Project [UnresolvedColumn "remotes" "url"; UnresolvedColumn "refs" "hash"]
        (CrossJoin (ResolvedTable refs) (ResolvedTable remotes))) ∧
  qualifyColumns inGitbase
    (Project [UnresolvedColumn "" "author"]
       (CrossJoin (ResolvedTable refs) (ResolvedTable remotes))) =
  Err (ErrColumnTableNotFound "" "author").
Proof. split; vm_compute; reflexivity. Qed.

(** The ambiguous column, from the theorem: [refs] and [remotes] both
    come into scope with a column [name]. *)
Lemma qualifyColumns_unqualified_witness :
  qualifyColumns inGitbase
    (Project [UnresolvedColumn "" "name"]
       (CrossJoin (ResolvedTable refs) (ResolvedTable remotes))) =
  Err (ErrAmbiguousColumnName "name" "refs, remotes").
Proof.
  rewrite (proj2 (proj2 (proj2 (qualifyColumns_unqualified inGitbase "name")))).
  vm_compute. reflexivity.
Defined.

End qualifyColumns_example.

(** ** [resolveColumns] *)

Section transform_facts.

(** Two callbacks that agree everywhere give the same rewrite. *)
Lemma mapM_result_ext {A B} (f g : A → result B) (l : list A) :
  Forall (λ x, f x = g x) l → mapM f l = mapM g l.
Proof.
  induction 1 as [|x l Hx _ IH]; simpl; [done|]. by rewrite Hx, IH.
Qed.

Lemma expr_TransformUp_ext (f g : Expression → result Expression) e :
  (∀ e, f e = g e) → expression.TransformUp f e = expression.TransformUp g e.
Proof.
  intros Hfg.
  induction e as [t n|n args IH|i ty t n nl| |v ty|c IH|l r IHl IHr|l r IHl IHr
                 |op l r IHl IHr|op l r IHl IHr|n args IH]
    using Expression_ind'; simpl;
    rewrite ?IH, ?IHl, ?IHr, ?(mapM_result_ext _ _ _ IH); unfold mbind, result_bind;
    repeat match goal with
           | |- context [match ?m with _ => _ end] => destruct m
           end; auto.
Qed.

Lemma TransformExpressionsUp_ext (f g : Expression → result Expression) n :
  (∀ e, f e = g e) → TransformExpressionsUp f n = TransformExpressionsUp g n.
Proof.
  intros Hfg. destruct n; simpl; try done.
  - rewrite (mapM_result_ext _ (expression.TransformUp g)); [done|].
    apply Forall_forall. intros. by apply expr_TransformUp_ext.
  - by rewrite (expr_TransformUp_ext f g).
  - rewrite (mapM_result_ext _
               (λ sf, col ← expression.TransformUp g (sfColumn sf);
                      mret (mkSortField col (sfOrder sf)))); [done|].
    apply Forall_forall. intros sf _. simpl.
    by rewrite (expr_TransformUp_ext f g).
  - rewrite (mapM_result_ext (expression.TransformUp f)
               (expression.TransformUp g) cols),
            (mapM_result_ext (expression.TransformUp f)
               (expression.TransformUp g) handled); [done|..];
      apply Forall_forall; intros; by apply expr_TransformUp_ext.
Qed.

Lemma forallb_elem {A} (f : A → bool) (l : list A) x :
  forallb f l = true → x ∈ l → f x = true.
Proof.
  intros Hall Hx. apply list_elem_of_In in Hx.
  by apply (proj1 (forallb_forall f l) Hall).
Qed.

(** A callback that only touches column references leaves a resolved
    expression as it is. *)
Lemma mapM_result_id {A} (f : A → result A) (l : list A) :
  Forall (λ x, f x = Ok x) l → mapM f l = Ok l.
Proof. intros H. apply mapM_Ok. by apply Forall_Forall2_diag. Qed.

Lemma expr_TransformUp_resolved (f : Expression → result Expression) e :
  (∀ e, (∀ t c, e ≠ UnresolvedColumn t c) → f e = Ok e) →
  expression.Resolved e = true →
  expression.TransformUp f e = Ok e.
Proof.
  intros Hf.
  induction e as [t n|n args IH|i ty t n nl| |v ty|c IH|l r IHl IHr|l r IHl IHr
                 |op l r IHl IHr|op l r IHl IHr|n args IH]
    using Expression_ind'; simpl; intros Hres; try done;
    try (apply andb_true_iff in Hres as [Hl Hr]; rewrite IHl, IHr by done; simpl);
    try (rewrite IH by done; simpl);
    try by apply Hf.
  rewrite mapM_result_id; [simpl; by apply Hf|].
  apply Forall_forall. intros a Ha.
  rewrite Forall_forall in IH. apply IH; [done|].
  by eapply forallb_elem.
Qed.

Lemma TransformExpressionsUp_resolved (f : Expression → result Expression) n :
  (∀ e, (∀ t c, e ≠ UnresolvedColumn t c) → f e = Ok e) →
  Resolved n = true →
  TransformExpressionsUp f n = Ok n.
Proof.
  intros Hf Hres.
  assert (∀ l, forallb expression.Resolved l = true →
               mapM (expression.TransformUp f) l = Ok l) as Hlist.
  { intros l Hl. apply mapM_result_id.
    apply Forall_forall. intros e He.
    apply expr_TransformUp_resolved; [done|]. by eapply forallb_elem. }
  destruct n; simpl in *; try done.
  - apply andb_true_iff in Hres as [He _]. by rewrite Hlist.
  - apply andb_true_iff in Hres as [He _].
    by rewrite expr_TransformUp_resolved.
  - apply andb_true_iff in Hres as [He _].
    rewrite mapM_result_id; [done|].
    apply Forall_forall. intros [column order] Hsf.
    apply (forallb_elem _ _ _ He) in Hsf. simpl in *.
    by rewrite expr_TransformUp_resolved.
  - apply andb_true_iff in Hres as [Hc Hh]. by rewrite !Hlist.
Qed.

End transform_facts.

Section resolveColumns_facts.

Context `{!NodeSchema}.

Abbreviation named c := (filter (λ ci : columnInfo, Name (col ci) = c)).

Lemma columnInfos_snoc (k : nat) (S : list Column) (x : Column) :
  columnInfos k (S ++ [x]) =
  columnInfos k S ++ [mkColumnInfo (Z.of_nat (k + length S)) x].
Proof.
  revert k. induction S as [|y S IH]; intros k; simpl.
  - by rewrite Nat.add_0_r.
  - rewrite IH.
    by replace (k + Datatypes.S (length S))%nat
      with (Datatypes.S k + length S)%nat by lia.
Qed.

(** The map built so far and the counter stay in step with the columns
    seen so far. *)
Lemma addColumn_maps colMap (S : list Column) (x : Column) :
  mapsSchema colMap S →
  mapsSchema (addColumn (colMap, Z.of_nat (length S)) x).1 (S ++ [x]) ∧
  (addColumn (colMap, Z.of_nat (length S)) x).2 =
    Z.of_nat (length (S ++ [x])).
Proof.
  intros Hmap. split; simpl.
  - intros c. rewrite columnInfos_snoc, filter_app. simpl.
    destruct (decide (Name x = c)) as [<-|Hne].
    + rewrite lookup_insert_eq, filter_cons_True by done.
      rewrite (Hmap (Name x)).
      by destruct (named (Name x) (columnInfos 0 S)).
    + rewrite lookup_insert_ne, filter_cons_False by done.
      rewrite filter_nil, app_nil_r. apply Hmap.
  - rewrite length_app. simpl. lia.
Qed.

Lemma addColumns_maps (schema : list Column) colMap (S : list Column) :
  mapsSchema colMap S →
  mapsSchema (addColumns schema (colMap, Z.of_nat (length S))).1
             (S ++ schema) ∧
  (addColumns schema (colMap, Z.of_nat (length S))).2 =
    Z.of_nat (length (S ++ schema)).
Proof.
  unfold addColumns. revert colMap S.
  induction schema as [|x schema IH]; intros colMap S Hmap; cbn [foldl].
  - by rewrite app_nil_r.
  - destruct (addColumn_maps colMap S x Hmap) as [Hmap' Hidx].
    destruct (addColumn (colMap, Z.of_nat (length S)) x) as [colMap' idx'].
    simpl in Hmap', Hidx. subst idx'.
    destruct (IH colMap' (S ++ [x]) Hmap') as [Hm Hi].
    by rewrite <- !app_assoc in Hm, Hi.
Qed.

Lemma buildColMap_maps (children : list Node) colMap (S : list Column) :
  forallb Resolved children = true →
  mapsSchema colMap S →
  ∃ colMap',
    buildColMap children (colMap, Z.of_nat (length S)) = Some colMap' ∧
    mapsSchema colMap' (S ++ concat (Schema <$> children)).
Proof.
  revert colMap S.
  induction children as [|child rest IH]; intros colMap S Hres Hmap;
    cbn [buildColMap fmap list_fmap concat].
  - exists colMap. by rewrite app_nil_r.
  - simpl in Hres. apply andb_true_iff in Hres as [Hchild Hrest].
    rewrite Hchild. cbn [negb].
    destruct (addColumns_maps (Schema child) colMap S Hmap) as [Hmap' Hidx].
    destruct (addColumns (Schema child) (colMap, Z.of_nat (length S)))
      as [colMap' idx'].
    simpl in Hmap', Hidx. subst idx'.
    destruct (IH colMap' (S ++ Schema child) Hrest Hmap') as (m & Hm & Hmaps).
    exists m. split; [done|]. by rewrite <- app_assoc in Hmaps.
Qed.

(** Looking for the source among the columns of one name is looking
    for name and source together in the schema. *)
Lemma list_find_named (t c : string) (S : list Column) (k : nat) :
  snd <$> list_find (λ ci, Source (col ci) = t) (named c (columnInfos k S)) =
  (λ ix, mkColumnInfo (Z.of_nat (k + ix.1)) ix.2) <$>
    list_find (λ x, Name x = c ∧ Source x = t) S.
Proof.
  revert k. induction S as [|x S IH]; intros k; [done|].
  cbn [columnInfos list_find].
  assert (snd <$> list_find (λ ci, Source (col ci) = t)
                    (named c (columnInfos (Datatypes.S k) S)) =
          (λ ix, mkColumnInfo (Z.of_nat (k + ix.1)) ix.2) <$>
            (prod_map Datatypes.S id <$>
               list_find (λ x, Name x = c ∧ Source x = t) S)) as Hrest.
  { rewrite IH. destruct (list_find _ S) as [[i y]|]; simpl; [|done].
    do 3 f_equal. lia. }
  destruct (decide (Name x = c)) as [Hn|Hn].
  - rewrite filter_cons_True by done. cbn [list_find].
    destruct (decide (Source x = t)) as [Hs|Hs].
    + rewrite decide_True by done. rewrite decide_True by done.
      simpl. by rewrite Nat.add_0_r.
    + rewrite decide_False by done.
      rewrite (decide_False (P := Name x = c ∧ Source x = t)) by tauto.
      rewrite <- Hrest.
      by destruct (list_find _ (named c _)) as [[j ci]|].
  - rewrite filter_cons_False by done.
    rewrite (decide_False (P := Name x = c ∧ Source x = t)) by tauto.
    by rewrite <- Hrest.
Qed.

Lemma resolveColumn_bindColumn (n : Node) colMap (S : list Column) e :
  Resolved n = false → mapsSchema colMap S →
  resolveColumn n colMap e = bindColumn S e.
Proof.
  intros Hn Hmap. unfold resolveColumn, bindColumn. rewrite Hn.
  destruct e as [t c| | | | | | | | | |]; try done.
  pose proof (list_find_named t c S 0) as Hfind.
  rewrite (Hmap c).
  destruct (list_find (λ x, Name x = c ∧ Source x = t) S) as [[i x]|];
    simpl in Hfind.
  - destruct (named c (columnInfos 0 S)) as [|ci cis]; [done|].
    destruct (list_find _ (ci :: cis)) as [[j ci']|]; [|done].
    simpl in Hfind. by injection Hfind as ->.
  - destruct (named c (columnInfos 0 S)) as [|ci cis]; [done|].
    by destruct (list_find _ (ci :: cis)) as [[j ci']|].
Qed.

(** A resolved plan goes through the rule untouched. *)
Lemma resolveColumns_resolved (n : Node) :
  Resolved n = true → TransformUp resolveColumns_node n = Ok n.
Proof.
  induction n as [name|t|exprs c IH|e c IH|fields c IH|c IH|c IH|l IHl r IHr
                 |name c IH|name c IH|db|db name schema|cols t|cols handled t];
    intros Hres; cbn -[resolveColumns_node];
    try (unfold resolveColumns_node; by rewrite Hres);
    pose proof Hres as Hres'; simpl in Hres';
    repeat match goal with
           | H : _ && _ = true |- _ => apply andb_true_iff in H as [? ?]
           end;
    rewrite ?IH, ?IHl, ?IHr by done; cbn -[resolveColumns_node];
    unfold resolveColumns_node; by rewrite Hres.
Qed.

End resolveColumns_facts.

(** C1.  For every plan node all of whose children are resolved,
    [resolveColumns] rewrites the expressions of the node, bottom-up, with
    [bindColumn] over the concatenation of the children's schemas in
    order: an [UnresolvedColumn t c] becomes the [GetField] whose index is
    the position, in that concatenation, of the first column named [c]
    with source [t], and whose type, table, name and nullability are those
    of that column; when no column named [c] has source [t] (none is named
    [c], or none of those has source [t]) the rule fails with
    [ColumnTableNotFound t c].  Everything else is left as it is. *)
Theorem resolveColumns_binds `{!NodeSchema} (a : Analyzer) (n : Node) :
  forallb Resolved (Children n) = true →
  resolveColumns_node n =
    TransformExpressionsUp (bindColumn (concat (Schema <$> Children n))) n ∧
  resolveColumns a n =
    TransformExpressionsUp (bindColumn (concat (Schema <$> Children n))) n ∧
  ∀ t c,
    bindColumn (concat (Schema <$> Children n)) (UnresolvedColumn t c) =
      Err (ErrColumnTableNotFound t c) ↔
    ¬ ∃ x, x ∈ concat (Schema <$> Children n) ∧ Name x = c ∧ Source x = t.
Proof.
  intros Hchildren.
  assert (resolveColumns_node n =
          TransformExpressionsUp
            (bindColumn (concat (Schema <$> Children n))) n) as Hnode.
  { unfold resolveColumns_node.
    destruct (Resolved n) eqn:Hn.
    - symmetry. apply TransformExpressionsUp_resolved; [|done].
      intros e He. destruct e; try done. by destruct (He table name).
    - destruct (buildColMap_maps (Children n) ∅ [] Hchildren)
        as (colMap & Hbuild & Hmap).
      { intros c. by rewrite lookup_empty. }
      change (Z.of_nat (length [])) with 0 in Hbuild. rewrite Hbuild.
      apply TransformExpressionsUp_ext. intros e.
      by apply resolveColumn_bindColumn. }
  split_and!; [done| |].
  - rewrite <- Hnode. unfold resolveColumns.
    destruct n; cbn -[resolveColumns_node]; try done;
      simpl in Hchildren;
      repeat match goal with
             | H : _ && _ = true |- _ => apply andb_true_iff in H as [? ?]
             end;
      by rewrite ?resolveColumns_resolved by done.
  - intros t c. unfold bindColumn.
    destruct (list_find _ _) as [[i x]|] eqn:Hfind.
    + split; [done|]. intros Hnone. destruct Hnone.
      apply list_find_Some in Hfind as (Hi & ? & _).
      exists x. split; [by eapply list_elem_of_lookup_2 | done].
    + split; [|done]. intros _ (x & Hx & Hn & Hs).
      apply list_find_None in Hfind. rewrite Forall_forall in Hfind.
      by apply (Hfind x Hx).
Qed.

Section resolveColumns_example.

#[local] Existing Instance examples.exampleSchema.
Import examples.

(** Over [refs] joined with [remotes], [remotes.name] is the third
    column of the joined row; [refs.url] names a column that exists, but
    not in [refs]. *)
Lemma resolveColumns_binds_witness :
  forallb Resolved
    (Children (Project [UnresolvedColumn "remotes" "name"]
                 (CrossJoin (ResolvedTable refs) (ResolvedTable remotes))))
    = true ∧
  resolveColumns inGitbase
    (Project [UnresolvedColumn "remotes" "name"]
       (CrossJoin (ResolvedTable refs) (ResolvedTable remotes))) =
  Ok (Project [GetField 2 Text "remotes" "name" false]
        (CrossJoin (ResolvedTable refs) (ResolvedTable remotes))).
Proof.
  split; [reflexivity|].
  exact (proj1 (proj2 (resolveColumns_binds inGitbase
                         (Project [UnresolvedColumn "remotes" "name"]
                            (CrossJoin (ResolvedTable refs)
                                       (ResolvedTable remotes)))
                         eq_refl))).
Defined.

Example resolveColumns_wrong_table :
  resolveColumns inGitbase
    (Project [UnresolvedColumn "refs" "url"]
       (CrossJoin (ResolvedTable refs) (ResolvedTable remotes))) =
  Err (ErrColumnTableNotFound "refs" "url").
Proof. vm_compute. reflexivity. Qed.

End resolveColumns_example.


(** * Further properties of the rules *)

(** ** [dedupStrings] *)

Section dedupStrings_more.

Lemma dedupStrings_snoc (l : list string) (x : string) :
  dedupStrings (l ++ [x]) =
  if decide (x ∈ l) then dedupStrings l else dedupStrings l ++ [x].
Proof.
  unfold dedupStrings. rewrite foldl_app. simpl.
  destruct (dedup_loop l ∅ []) as (Hseen & _ & Helem).
  { intros y. rewrite elem_of_nil. set_solver. }
  { constructor. }
  destruct (foldl dedupStep (∅, []) l) as [seen result]. simpl in *.
  assert (x ∈ seen ↔ x ∈ l) as Hx.
  { rewrite Hseen, Helem, elem_of_nil. tauto. }
  destruct (decide (x ∈ seen)), (decide (x ∈ l)); simpl; tauto.
Qed.

End dedupStrings_more.

(** X1.  [dedupStrings] keeps the first occurrence of every string and
    drops the later ones: the result has no duplicates, has the same
    elements as the input, is a sublist of it, and reading one more string
    appends it exactly when it did not occur before.  A list without
    duplicates comes back as it is. *)
Theorem dedupStrings_first_occurrences (l : list string) :
  NoDup (dedupStrings l) ∧
  (∀ x, x ∈ dedupStrings l ↔ x ∈ l) ∧
  sublist (dedupStrings l) l ∧
  (∀ x, dedupStrings (l ++ [x]) =
        if decide (x ∈ l) then dedupStrings l else dedupStrings l ++ [x]) ∧
  (NoDup l ↔ dedupStrings l = l).
Proof.
  destruct (dedupStrings_spec l) as [Hnodup Helem].
  split_and!; [done | done | | apply dedupStrings_snoc |].
  - clear Hnodup Helem. induction l as [|x l IH] using rev_ind; [done|].
    rewrite dedupStrings_snoc. destruct (decide (x ∈ l)).
    + by apply sublist_inserts_r.
    + by apply sublist_app.
  - split; [|by intros <-].
    clear Hnodup Helem. induction l as [|x l IH] using rev_ind; [done|].
    intros [Hl [Hx _]]%NoDup_app. rewrite dedupStrings_snoc.
    rewrite decide_False, IH; [done..|].
    intros Hin. by apply (Hx x Hin), list_elem_of_singleton.
Qed.

(** ** Field-index fixup, continued *)

Section fixFieldIndexes_more.

Variable S : list Column.

Lemma Reindexed_fixed e e' : Reindexed S e e' → Reindexed S e' e'.
Proof.
  revert e'.
  induction e as [t n|n args IH|i ty t n nl| |v ty|c IH|l r IHl IHr|l r IHl IHr
                 |op l r IHl IHr|op l r IHl IHr|n args IH]
    using Expression_ind';
    intros e' Hre; inversion Hre; subst; try (constructor; by eauto).
  - constructor.
    match goal with H : Forall2 _ _ _ |- _ =>
      clear Hre; revert IH; induction H end;
      intros IH; [constructor|].
    inversion IH; subst. constructor; eauto.
  - constructor.
    match goal with H : Forall2 _ _ _ |- _ =>
      clear Hre; revert IH; induction H end;
      intros IH; [constructor|].
    inversion IH; subst. constructor; eauto.
Qed.

Lemma Reindexed_pointsInto e e' :
  Reindexed S e e' → Forall (pointsInto S) (getFields e').
Proof.
  revert e'.
  induction e as [t n|n args IH|i ty t n nl| |v ty|c IH|l r IHl IHr|l r IHl IHr
                 |op l r IHl IHr|op l r IHl IHr|n args IH]
    using Expression_ind';
    intros e' Hre; inversion Hre; subst; simpl;
    try (by constructor); try (apply Forall_app; by eauto); eauto.
  - match goal with H : Forall2 _ _ _ |- _ =>
      clear Hre; revert IH; induction H end;
      intros IH; simpl; [constructor|].
    inversion IH; subst. apply Forall_app; eauto.
  - constructor; [|constructor]. simpl. eauto.
  - match goal with H : Forall2 _ _ _ |- _ =>
      clear Hre; revert IH; induction H end;
      intros IH; simpl; [constructor|].
    inversion IH; subst. apply Forall_app; eauto.
Qed.

Lemma fixFieldIndexes_Reindexed e e' :
  fixFieldIndexes S e = Ok e' → Reindexed S e e'.
Proof.
  intros Heq. pose proof (fixFieldIndexes_outcome S e) as Hout.
  rewrite Heq in Hout. by destruct Hout.
Qed.

Lemma mapM_Err_first {A B} (f : A → result B) (l : list A) err :
  mapM f l = Err err ↔
  ∃ l1 x l2, l = l1 ++ x :: l2 ∧ Forall (λ y, ∃ y', f y = Ok y') l1
             ∧ f x = Err err.
Proof.
  induction l as [|x l IH]; simpl.
  - split; [done|]. intros (l1 & y & l2 & Hl & _). by destruct l1.
  - rewrite bind_Err. split.
    + intros [Hx|(y & Hy & Hk)].
      * exists [], x, l. by split_and!.
      * apply bind_Err in Hk as [Hk|(k & _ & ?)]; [|done].
        apply IH in Hk as (l1 & z & l2 & -> & Hl1 & Hz).
        exists (x :: l1), z, l2. split_and!; [done| |done].
        constructor; eauto.
    + intros (l1 & z & l2 & Hl & Hl1 & Hz). destruct l1 as [|y l1].
      * injection Hl as -> ->. by left.
      * injection Hl as -> ->. inversion Hl1 as [|? ? [y' Hy] Hrest]; subst.
        right. exists y'. split; [done|]. apply bind_Err. left.
        apply IH. eauto 6.
Qed.

End fixFieldIndexes_more.

(** X2.  Field-index fixup is idempotent: an expression it produced goes
    through a second fixup against the same schema unchanged. *)
Theorem fixFieldIndexes_idempotent (S : list Column) (e e' : Expression) :
  fixFieldIndexes S e = Ok e' → fixFieldIndexes S e' = Ok e'.
Proof.
  intros Heq. apply fixFieldIndexes_complete.
  eapply Reindexed_fixed. by apply fixFieldIndexes_Reindexed.
Qed.

Lemma fixFieldIndexes_idempotent_witness :
  fixFieldIndexes (tSchema examples.commits) (examples.authorIs 6) =
    Ok (examples.authorIs 1) ∧
  fixFieldIndexes (tSchema examples.commits) (examples.authorIs 1) =
    Ok (examples.authorIs 1).
Proof.
  split; [reflexivity|].
  exact (fixFieldIndexes_idempotent (tSchema examples.commits)
           (examples.authorIs 6) (examples.authorIs 1) eq_refl).
Defined.

(** X3.  After a successful fixup every field accessor of the result
    points into the schema: its index is the position of the first column
    of [S] that has its name.  The result names the same columns as the
    input, in the same order. *)
Theorem fixFieldIndexes_indexes_valid (S : list Column) (e e' : Expression) :
  fixFieldIndexes S e = Ok e' →
  Forall (pointsInto S) (getFields e') ∧
  fieldNames e' = fieldNames e.
Proof.
  intros Heq. apply fixFieldIndexes_Reindexed in Heq.
  split; [by eapply Reindexed_pointsInto|].
  revert e' Heq.
  induction e as [t n|n args IH|i ty t n nl| |v ty|c IH|l r IHl IHr|l r IHl IHr
                 |op l r IHl IHr|op l r IHl IHr|n args IH]
    using Expression_ind';
    intros e' Hre; inversion Hre; subst; simpl; try done;
    try (by eauto); try (f_equal; by eauto).
  - f_equal.
    match goal with H : Forall2 _ _ _ |- _ =>
      clear Hre; revert IH; induction H end;
      intros IH; simpl; [done|].
    inversion IH; subst. f_equal; eauto.
  - f_equal.
    match goal with H : Forall2 _ _ _ |- _ =>
      clear Hre; revert IH; induction H end;
      intros IH; simpl; [done|].
    inversion IH; subst. f_equal; eauto.
Qed.

Lemma fixFieldIndexes_indexes_valid_witness :
  fixFieldIndexes (tSchema examples.commits) (examples.authorIs 6) =
    Ok (examples.authorIs 1) ∧
  Forall (pointsInto (tSchema examples.commits))
         (getFields (examples.authorIs 1)).
Proof.
  split; [reflexivity|].
  exact (proj1 (fixFieldIndexes_indexes_valid (tSchema examples.commits)
                  (examples.authorIs 6) (examples.authorIs 1) eq_refl)).
Defined.

(** X4.  [fixFieldIndexesOnExpressions] succeeds exactly when the fixup
    of every expression succeeds, and then returns the results in order
    (so as many as it was given).  It fails with the error of the first
    expression whose fixup fails. *)
Theorem fixFieldIndexesOnExpressions_all_or_first
    (S : list Column) (expressions : list Expression) :
  (∀ result,
     fixFieldIndexesOnExpressions S expressions = Ok result ↔
     Forall2 (λ e e', fixFieldIndexes S e = Ok e') expressions result) ∧
  (∀ err,
     fixFieldIndexesOnExpressions S expressions = Err err ↔
     ∃ before e after,
       expressions = before ++ e :: after ∧
       Forall (λ x, ∃ x', fixFieldIndexes S x = Ok x') before ∧
       fixFieldIndexes S e = Err err).
Proof.
  split; intros ?; [apply mapM_Ok | apply mapM_Err_first].
Qed.

(** ** [resolveTables] *)

Section resolveTables_facts.

Variable a : Analyzer.

Abbreviation lookup := (Table (Catalog a) (CurrentDatabase a)).

Lemma resolveTables_node_other (n : Node) :
  (∀ name, n ≠ UnresolvedTable name) → resolveTables_node a n = Ok n.
Proof.
  intros Hn. unfold resolveTables_node. destruct (Resolved n); [done|].
  destruct n; try done. by destruct (Hn name).
Qed.

(** What one run of the rule establishes. *)
Lemma resolveTables_outcome (n : Node) :
  match resolveTables a n with
  | Ok n' =>
      n' = bindTables lookup n ∧
      Forall (λ name, ∃ t, lookup name = Ok t) (unresolvedTables n) ∧
      unresolvedTables n' = []
  | Err err =>
      ∃ before name after,
        unresolvedTables n = before ++ name :: after ∧
        Forall (λ name, ∃ t, lookup name = Ok t) before ∧
        lookup name = Err err
  end.
Proof.
  unfold resolveTables.
  induction n as [name|t|exprs c IH|e c IH|fields c IH|c IH|c IH|l IHl r IHr
                 |name c IH|name c IH|db|db name schema|cols t|cols handled t];
    cbn -[resolveTables_node];
    try (rewrite resolveTables_node_other by done; by split_and!);
    try (destruct (TransformUp (resolveTables_node a) c) as [c'|err];
         cbn -[resolveTables_node];
         [ rewrite resolveTables_node_other by done;
           destruct IH as (-> & ? & ?); by split_and!
         | done ]).
  - unfold resolveTables_node. simpl.
    destruct (lookup name) as [t|err] eqn:Hname.
    + split_and!; [done| |done]. constructor; [eauto | constructor].
    + exists [], name, []. by split_and!.
  - destruct (TransformUp (resolveTables_node a) l) as [l'|err];
      cbn -[resolveTables_node].
    + destruct IHl as (-> & Hl & Hl').
      destruct (TransformUp (resolveTables_node a) r) as [r'|err];
        cbn -[resolveTables_node].
      * rewrite resolveTables_node_other by done.
        destruct IHr as (-> & Hr & Hr').
        split_and!; [done | by apply Forall_app |].
        simpl. by rewrite Hl', Hr'.
      * destruct IHr as (before & name & after & -> & Hb & Hname).
        exists (unresolvedTables l ++ before), name, after.
        split_and!; [by rewrite app_assoc | by apply Forall_app | done].
    + destruct IHl as (before & name & after & -> & Hb & Hname).
      exists before, name, (after ++ unresolvedTables r).
      split_and!; [by rewrite <- app_assoc | done | done].
Qed.

End resolveTables_facts.

(** X5.  [resolveTables] replaces every [UnresolvedTable] by the table
    the catalog gives for its name in the current database and changes
    nothing else; when it succeeds no [UnresolvedTable] is left.  It fails
    exactly when the catalog does not know one of the names, with the
    catalog's error for the first such name the traversal meets. *)
Theorem resolveTables_binds_or_first_unknown (a : Analyzer) (n : Node) :
  match resolveTables a n with
  | Ok n' =>
      n' = bindTables (Table (Catalog a) (CurrentDatabase a)) n ∧
      Forall (λ name, ∃ t, Table (Catalog a) (CurrentDatabase a) name = Ok t)
             (unresolvedTables n) ∧
      unresolvedTables n' = []
  | Err err =>
      ∃ before name after,
        unresolvedTables n = before ++ name :: after ∧
        Forall (λ name, ∃ t, Table (Catalog a) (CurrentDatabase a) name = Ok t)
               before ∧
        Table (Catalog a) (CurrentDatabase a) name = Err err
  end.
Proof. apply resolveTables_outcome. Qed.

(** ** Resolved plans *)

Section resolved_facts.

(** A callback that returns resolved nodes as they are leaves a resolved
    plan as it is. *)
Lemma TransformUp_resolved (f : Node → result Node) (n : Node) :
  (∀ m, Resolved m = true → f m = Ok m) →
  Resolved n = true → TransformUp f n = Ok n.
Proof.
  intros Hf.
  induction n as [name|t|exprs c IH|e c IH|fields c IH|c IH|c IH|l IHl r IHr
                 |name c IH|name c IH|db|db name schema|cols t|cols handled t];
    intros Hres; simpl; try (by apply Hf);
    pose proof Hres as Hres'; simpl in Hres';
    repeat match goal with
           | H : _ && _ = true |- _ => apply andb_true_iff in H as [? ?]
           end;
    rewrite ?IH, ?IHl, ?IHr by done; simpl; by apply Hf.
Qed.

End resolved_facts.

(** X6.  A resolved plan is a fixed point of the four resolution rules
    that start with the [Resolved] guard: [resolveTables],
    [resolveColumns], [resolveStar] and [resolveFunctions] return it
    unchanged, whatever the catalog holds. *)
Theorem resolved_plan_untouched `{!NodeSchema}
    (Function : FunctionLookup) (a : Analyzer) (n : Node) :
  Resolved n = true →
  resolveTables a n = Ok n ∧
  resolveColumns a n = Ok n ∧
  resolveStar a n = Ok n ∧
  resolveFunctions Function a n = Ok n.
Proof.
  intros Hres.
  split_and!; apply TransformUp_resolved; try done; intros m Hm.
  - unfold resolveTables_node. by rewrite Hm.
  - unfold resolveColumns_node. by rewrite Hm.
  - unfold resolveStar_node. by rewrite Hm.
  - unfold resolveFunctions_node. by rewrite Hm.
Qed.

Section resolved_example.

#[local] Existing Instance examples.exampleSchema.
Import examples.

Lemma resolved_plan_untouched_witness :
  Resolved (Filter (hashIs 1) (CrossJoin (ResolvedTable refs)
                                         (ResolvedTable commits))) = true ∧
  resolveColumns inNowhere
    (Filter (hashIs 1) (CrossJoin (ResolvedTable refs)
                                  (ResolvedTable commits))) =
  Ok (Filter (hashIs 1) (CrossJoin (ResolvedTable refs)
                                   (ResolvedTable commits))).
Proof.
  split; [reflexivity|].
  exact (proj1 (proj2 (resolved_plan_untouched
                         (λ name, Err (ErrTableNotFound name)) inNowhere
                         (Filter (hashIs 1)
                            (CrossJoin (ResolvedTable refs)
                                       (ResolvedTable commits)))
                         eq_refl))).
Defined.

End resolved_example.

(** ** [resolveStar], continued *)

(** X7.  [resolveStar] never fails.  At a [Project] whose expression
    list is not exactly one [Star] (no expression, a [Star] among others,
    a single other expression) it leaves the list as it is. *)
Theorem resolveStar_total_and_only_lone_star `{!NodeSchema}
    (a : Analyzer) (n : Node) :
  (∃ n', resolveStar a n = Ok n') ∧
  ∀ exprs child,
    exprs ≠ [Star] →
    resolveStar_node (Project exprs child) = Ok (Project exprs child).
Proof.
  split; [apply resolveStar_total|].
  intros exprs child Hne. unfold resolveStar_node.
  destruct (Resolved (Project exprs child)); [done|].
  destruct exprs as [|e [|e' exprs]]; try done.
  destruct e; try done.
Qed.

(** X8.  Star expansion produces resolved expressions: over a resolved
    child, [Project [Star]] becomes a resolved [Project] over the same
    child. *)
Theorem resolveStar_result_resolved `{!NodeSchema} (a : Analyzer) (child : Node) :
  Resolved child = true →
  ∃ exprs,
    resolveStar a (Project [Star] child) = Ok (Project exprs child) ∧
    Resolved (Project exprs child) = true.
Proof.
  intros Hres. exists (imap starField (Schema child)). split.
  - unfold resolveStar. simpl.
    rewrite (TransformUp_resolved resolveStar_node child); [done| |done].
    intros m Hm. unfold resolveStar_node. by rewrite Hm.
  - simpl. rewrite Hres, andb_true_r.
    apply forallb_forall. intros e He. apply list_elem_of_In in He.
    apply list_elem_of_lookup in He as [i Hi].
    rewrite list_lookup_imap in Hi.
    destruct (Schema child !! i); [|done]. by injection Hi as <-.
Qed.

Section resolveStar_example2.

#[local] Existing Instance examples.exampleSchema.
Import examples.

Lemma resolveStar_result_resolved_witness :
  Resolved (ResolvedTable refs) = true ∧
  Resolved (Project [ GetField 0 Text "" "name" false;
                      GetField 1 Text "" "hash" false ]
                    (ResolvedTable refs)) = true.
Proof.
  split; [reflexivity|].
  destruct (resolveStar_result_resolved inGitbase (ResolvedTable refs) eq_refl)
    as (exprs & Hstar & Hres).
  injection Hstar as <-. exact Hres.
Defined.

End resolveStar_example2.

(** ** [resolveSubqueries] *)

(** X9.  On a plan without a [SubqueryAlias] the rule returns the plan
    as it is and does not depend on the analyzer it would call: the result
    is the same whatever [Analyze] does, even if it always fails. *)
Theorem resolveSubqueries_without_subquery
    (Analyze : Node → result Node) (a : Analyzer) (n : Node) :
  containsSubquery n = false → resolveSubqueries Analyze a n = Ok n.
Proof.
  unfold resolveSubqueries.
  induction n as [name|t|exprs c IH|e c IH|fields c IH|c IH|c IH|l IHl r IHr
                 |name c IH|name c IH|db|db name schema|cols t|cols handled t];
    simpl; intros Hsub; try done;
    try (by rewrite IH).
  apply orb_false_iff in Hsub as [Hl Hr]. by rewrite IHl, IHr.
Qed.

Lemma resolveSubqueries_without_subquery_witness :
  containsSubquery
    (Project [Star] (TableAlias "r" (ResolvedTable examples.refs))) = false ∧
  resolveSubqueries (λ _, Err (ErrTableNotFound "")) examples.inGitbase
    (Project [Star] (TableAlias "r" (ResolvedTable examples.refs))) =
  Ok (Project [Star] (TableAlias "r" (ResolvedTable examples.refs))).
Proof.
  split; [reflexivity|].
  exact (resolveSubqueries_without_subquery
           (λ _, Err (ErrTableNotFound "")) examples.inGitbase
           (Project [Star] (TableAlias "r" (ResolvedTable examples.refs)))
           eq_refl).
Defined.

(** ** Traversals with captured state *)

Section traversal_facts.

Context {S : Type}.

(** What every call of the callback keeps, the traversal keeps. *)
Lemma TransformUp_St_invariant (I : S → Prop) (f : Node → St S Node) :
  (∀ m s, I s → I (f m s).1) →
  ∀ n s, I s → I (TransformUp f n s).1.
Proof.
  intros Hf.
  induction n as [name|t|exprs c IH|e c IH|fields c IH|c IH|c IH|l IHl r IHr
                 |name c IH|name c IH|db|db name schema|cols t|cols handled t];
    intros s Hs; simpl; try (by apply Hf); unfold mbind, St_bind;
    try (specialize (IH s Hs);
         destruct (TransformUp f c s) as [s1 [c'|err]]; simpl in *;
         [by apply Hf | done]).
  specialize (IHl s Hs).
  destruct (TransformUp f l s) as [s1 [l'|err]]; simpl in *; [|done].
  specialize (IHr s1 IHl).
  destruct (TransformUp f r s1) as [s2 [r'|err]]; simpl in *;
    [by apply Hf | done].
Qed.

(** An error of the traversal is an error of some call of the
    callback. *)
Lemma TransformUp_St_errors (P : Error → Prop) (f : Node → St S Node) :
  (∀ m s err, (f m s).2 = Err err → P err) →
  ∀ n s err, (TransformUp f n s).2 = Err err → P err.
Proof.
  intros Hf.
  induction n as [name|t|exprs c IH|e c IH|fields c IH|c IH|c IH|l IHl r IHr
                 |name c IH|name c IH|db|db name schema|cols t|cols handled t];
    intros s err; simpl; try (by apply Hf); unfold mbind, St_bind;
    try (specialize (IH s);
         destruct (TransformUp f c s) as [s1 [c'|err']]; simpl in *;
         [by apply Hf | by intros [= <-]; apply IH]).
  specialize (IHl s).
  destruct (TransformUp f l s) as [s1 [l'|err']]; simpl in *;
    [|by intros [= <-]; apply IHl].
  specialize (IHr s1).
  destruct (TransformUp f r s1) as [s2 [r'|err']]; simpl in *;
    [by apply Hf | by intros [= <-]; apply IHr].
Qed.

Lemma mapM_St_invariant {A B} (I : S → Prop) (f : A → St S B) (l : list A) :
  Forall (λ x, ∀ s, I s → I (f x s).1) l →
  ∀ s, I s → I (mapM f l s).1.
Proof.
  induction 1 as [|x l Hx _ IH]; intros s Hs; simpl; [done|].
  unfold mbind, St_bind at 1. specialize (Hx s Hs).
  destruct (f x s) as [s1 [y|err]]; simpl in *; [|done].
  unfold mbind, St_bind at 1. specialize (IH s1 Hx).
  by destruct (mapM (M := St S) f l s1) as [s2 [k|err]].
Qed.

Lemma expr_TransformUp_St_invariant (I : S → Prop)
    (f : Expression → St S Expression) :
  (∀ e s, I s → I (f e s).1) →
  ∀ e s, I s → I (expression.TransformUp f e s).1.
Proof.
  intros Hf e.
  induction e as [t n|n args IH|i ty t n nl| |v ty|c IH|l r IHl IHr|l r IHl IHr
                 |op l r IHl IHr|op l r IHl IHr|n args IH]
    using Expression_ind';
    intros s Hs; simpl; try (by apply Hf); unfold mbind, St_bind;
    first
      [ pose proof (mapM_St_invariant I _ _ IH s Hs) as Hargs;
        destruct (mapM (M := St S) _ args s) as [s1 [args'|err]]; simpl in *;
        [by apply Hf | done]
      | specialize (IH s Hs);
        destruct (expression.TransformUp f c s) as [s1 [c'|err]]; simpl in *;
        [by apply Hf | done]
      | specialize (IHl s Hs);
        destruct (expression.TransformUp f l s) as [s1 [l'|err]]; simpl in *;
        [|done];
        specialize (IHr s1 IHl);
        destruct (expression.TransformUp f r s1) as [s2 [r'|err]]; simpl in *;
        [by apply Hf | done] ].
Qed.

Lemma TransformExpressionsUp_St_invariant (I : S → Prop)
    (f : Expression → St S Expression) :
  (∀ e s, I s → I (f e s).1) →
  ∀ n s, I s → I (TransformExpressionsUp f n s).1.
Proof.
  intros Hf n s Hs.
  assert (∀ l s, I s → I (mapM (expression.TransformUp f) l s).1) as Hlist.
  { intros l s' Hs'. apply mapM_St_invariant; [|done].
    apply Forall_forall. intros e _ s''.
    by apply expr_TransformUp_St_invariant. }
  destruct n; simpl; try done; unfold mbind, St_bind.
  - specialize (Hlist exprs s Hs).
    by destruct (mapM (M := St S) _ exprs s) as [s1 [exprs'|err]].
  - pose proof (expr_TransformUp_St_invariant I f Hf e s Hs) as He.
    by destruct (expression.TransformUp f e s) as [s1 [e'|err]].
  - assert (I (mapM (λ sf, col ← expression.TransformUp f (sfColumn sf);
                           mret (mkSortField col (sfOrder sf))) fields s).1)
      as Hfields.
    { apply mapM_St_invariant; [|done].
      apply Forall_forall. intros sf _ s' Hs'. unfold mbind, St_bind.
      pose proof (expr_TransformUp_St_invariant I f Hf (sfColumn sf) s' Hs').
      by destruct (expression.TransformUp f (sfColumn sf) s') as [? [?|?]]. }
    by destruct (mapM (M := St S) _ fields s) as [s1 [fields'|err]].
  - pose proof (Hlist cols s Hs) as Hcols.
    destruct (mapM (M := St S) _ cols s) as [s1 [cols'|err]]; simpl in *; [|done].
    specialize (Hlist handled s1 Hcols).
    by destruct (mapM (M := St S) _ handled s1) as [s2 [handled'|err]].
Qed.

End traversal_facts.

(** ** [resolveColumns], continued *)

Section resolveColumns_more.

Context `{!NodeSchema}.

Lemma buildColMap_unresolved (children : list Node) acc :
  buildColMap children acc = None ↔ forallb Resolved children = false.
Proof.
  revert acc. induction children as [|child rest IH]; intros acc; simpl.
  - done.
  - destruct (Resolved child); simpl; [apply IH | done].
Qed.

Lemma buildColMap_Some (children : list Node) colMap :
  buildColMap children (∅, 0) = Some colMap →
  forallb Resolved children = true ∧
  mapsSchema colMap (concat (Schema <$> children)).
Proof.
  intros Hbuild.
  destruct (forallb Resolved children) eqn:Hres.
  - split; [done|].
    destruct (buildColMap_maps children ∅ [] Hres) as (colMap' & Hb & Hmap).
    { intros c. by rewrite lookup_empty. }
    change (Z.of_nat (length [])) with 0 in Hb.
    rewrite Hbuild in Hb. by injection Hb as ->.
  - apply (buildColMap_unresolved children (∅, 0)) in Hres.
    by rewrite Hres in Hbuild.
Qed.

End resolveColumns_more.

(** X10.  A node with an unresolved child is left alone by
    [resolveColumns]: it is returned as it is, without an error, whatever
    column references its expressions hold. *)
Theorem resolveColumns_waits_for_children `{!NodeSchema} (n : Node) :
  forallb Resolved (Children n) = false →
  resolveColumns_node n = Ok n.
Proof.
  intros Hres. unfold resolveColumns_node.
  destruct (Resolved n); [done|].
  by rewrite (proj2 (buildColMap_unresolved (Children n) (∅, 0)) Hres).
Qed.

Section resolveColumns_example2.

#[local] Existing Instance examples.exampleSchema.
Import examples.

Lemma resolveColumns_waits_for_children_witness :
  forallb Resolved
    (Children (Project [UnresolvedColumn "nowhere" "nothing"]
                 (UnresolvedTable "refs"))) = false ∧
  resolveColumns_node
    (Project [UnresolvedColumn "nowhere" "nothing"] (UnresolvedTable "refs")) =
  Ok (Project [UnresolvedColumn "nowhere" "nothing"] (UnresolvedTable "refs")).
Proof.
  split; [reflexivity|].
  exact (resolveColumns_waits_for_children
           (Project [UnresolvedColumn "nowhere" "nothing"]
              (UnresolvedTable "refs")) eq_refl).
Defined.

End resolveColumns_example2.

(** X11.  Index validity after [resolveColumns].  With the [colMap] the
    rule builds for an unresolved node, a column reference is either
    rejected with [ColumnTableNotFound] or bound to a field accessor that
    points at a column of the concatenated children schemas which has the
    name and the source asked for, and whose type and nullability the
    accessor carries. *)
Theorem resolveColumn_index_valid `{!NodeSchema}
    (n : Node) (colMap : gmap string (list columnInfo)) (t c : string) :
  Resolved n = false →
  buildColMap (Children n) (∅, 0) = Some colMap →
  match resolveColumn n colMap (UnresolvedColumn t c) with
  | Ok e =>
      ∃ i x, e = GetField (Z.of_nat i) (Type_ x) t c (Nullable x) ∧
             concat (Schema <$> Children n) !! i = Some x ∧
             Name x = c ∧ Source x = t
  | Err err => err = ErrColumnTableNotFound t c
  end.
Proof.
  intros Hn Hbuild. apply buildColMap_Some in Hbuild as [_ Hmap].
  rewrite (resolveColumn_bindColumn n colMap _ _ Hn Hmap).
  unfold bindColumn.
  destruct (list_find _ _) as [[i x]|] eqn:Hfind; [|done].
  apply list_find_Some in Hfind as (Hi & [Hname Hsrc] & _).
  exists i, x. unfold fieldOf. by rewrite Hname, Hsrc.
Qed.

Section resolveColumns_example3.

#[local] Existing Instance examples.exampleSchema.
Import examples.

Lemma resolveColumn_index_valid_witness :
  Resolved (Project [UnresolvedColumn "remotes" "url"]
              (CrossJoin (ResolvedTable refs) (ResolvedTable remotes)))
    = false ∧
  buildColMap
    (Children (Project [UnresolvedColumn "remotes" "url"]
                 (CrossJoin (ResolvedTable refs) (ResolvedTable remotes))))
    (∅, 0) =
  Some (addColumns (tSchema remotes) (addColumns (tSchema refs) (∅, 0))).1 ∧
  match
    resolveColumn
      (Project [UnresolvedColumn "remotes" "url"]
         (CrossJoin (ResolvedTable refs) (ResolvedTable remotes)))
      (addColumns (tSchema remotes) (addColumns (tSchema refs) (∅, 0))).1
      (UnresolvedColumn "remotes" "url")
  with
  | Ok e =>
      ∃ i x, e = GetField (Z.of_nat i) (Type_ x) "remotes" "url" (Nullable x) ∧
             concat (Schema <$>
                     Children (Project [UnresolvedColumn "remotes" "url"]
                                 (CrossJoin (ResolvedTable refs)
                                            (ResolvedTable remotes))))
               !! i = Some x ∧
             Name x = "url" ∧ Source x = "remotes"
  | Err err => err = ErrColumnTableNotFound "remotes" "url"
  end.
Proof.
  split_and!; [reflexivity | reflexivity |].
  exact (resolveColumn_index_valid
           (Project [UnresolvedColumn "remotes" "url"]
              (CrossJoin (ResolvedTable refs) (ResolvedTable remotes)))
           (addColumns (tSchema remotes) (addColumns (tSchema refs) (∅, 0))).1
           "remotes" "url" eq_refl eq_refl).
Defined.

End resolveColumns_example3.

(** ** [qualifyColumns], continued *)

Section qualifyColumns_more.

Context `{!NodeSchema}.

Lemma indexRegistered_init : indexRegistered qualifyInit.
Proof. intros c t. simpl. rewrite lookup_empty. simpl. by intros ?%elem_of_nil. Qed.

Lemma indexRegistered_register st name node schema :
  indexRegistered st →
  indexRegistered
    (mkQualifyState (<[name := node]> (tables st)) (tableAliases st)
                    (indexCols name schema (colIndex st))).
Proof.
  intros Hst c t. simpl. rewrite indexCols_elem. intros [Hin|[-> _]].
  - destruct (decide (name = t)) as [->|Hne].
    + rewrite lookup_insert_eq. eauto.
    + rewrite lookup_insert_ne by done. by eapply Hst.
  - rewrite lookup_insert_eq. eauto.
Qed.

Lemma recordNode_registered (n : Node) (st : qualifyState) :
  indexRegistered st → indexRegistered (recordNode n st).
Proof.
  intros Hst. unfold recordNode.
  destruct n; simpl;
    repeat match goal with
           | |- context [match asTable ?c with _ => _ end] =>
               destruct (asTable c)
           end;
    first [ done | by apply indexRegistered_register ].
Qed.

End qualifyColumns_more.

(** X12.  The column index of [qualifyColumns] only lists registered
    tables, and the traversal keeps it so.  Hence whenever the rule
    rewrites a column reference successfully, the reference keeps its
    column name and gets a table that is registered in [tables], be it
    found through the index, through an alias, or given as it stood. *)
Theorem qualifyColumns_table_registered `{!NodeSchema} (st : qualifyState) :
  indexRegistered st →
  (∀ n, indexRegistered (TransformUp qualifyColumns_node n st).1) ∧
  (∀ t c e,
     qualifyColumn st (UnresolvedColumn t c) = Ok e →
     ∃ t', e = UnresolvedColumn t' c ∧ is_Some (tables st !! t')).
Proof.
  intros Hst. split.
  - intros n. apply TransformUp_St_invariant; [|done].
    intros m s Hs. by apply recordNode_registered.
  - intros t c e. unfold qualifyColumn.
    destruct (decide (t = "")) as [->|Hne].
    + pose proof (dedupStrings_spec (default [] (colIndex st !! c)))
        as [_ Helem].
      destruct (dedupStrings _) as [|t' [|t'' ts]]; try done.
      intros [= <-]. exists t'. split; [done|].
      apply (Hst c t'), Helem. by left.
    + destruct (tables st !! _) as [node|] eqn:Htable; [|done].
      intros [= <-]. eexists. split; [done|]. by rewrite Htable.
Qed.

Section qualifyColumns_example2.

#[local] Existing Instance examples.exampleSchema.
Import examples.

Lemma qualifyColumns_table_registered_witness :
  indexRegistered qualifyInit ∧
  indexRegistered
    (TransformUp qualifyColumns_node
       (CrossJoin (ResolvedTable refs) (ResolvedTable remotes)) qualifyInit).1.
Proof.
  split; [apply indexRegistered_init|].
  exact (proj1 (qualifyColumns_table_registered qualifyInit
                  indexRegistered_init)
               (CrossJoin (ResolvedTable refs) (ResolvedTable remotes))).
Defined.

End qualifyColumns_example2.

(** ** [optimizeDistinct], continued *)

(** X13.  [optimizeDistinct] changes at most the kind of the root: the
    result has the children the plan had.  It is idempotent: applied to
    its own result it returns that result. *)
Theorem optimizeDistinct_idempotent (a : Analyzer) (P : Node) :
  ∃ P', optimizeDistinct a P = Ok P' ∧
        Children P' = Children P ∧
        optimizeDistinct a P' = Ok P'.
Proof.
  destruct P; try (eexists; split_and!; done).
  unfold optimizeDistinct. rewrite checkSorted_scan. simpl.
  destruct (containsSort P) eqn:Hsort.
  - eexists. split_and!; done.
  - eexists. split_and!; [done..|].
    rewrite checkSorted_scan. simpl. by rewrite Hsort.
Qed.

(** ** [pushdown], continued *)

Section pushdown_more.

Context `{!NodeSchema}.

(** The second pass only collects: it never fails and hands the plan
    back. *)
Lemma collectFilters_scan (n : Node) (filters : gmap string (list Expression)) :
  (TransformUp collectFilters n filters).2 = Ok n.
Proof.
  revert filters.
  induction n as [name|t|exprs c IH|e c IH|fields c IH|c IH|c IH|l IHl r IHr
                 |name c IH|name c IH|db|db name schema|cols t|cols handled t];
    intros filters; simpl; try done; unfold mbind, St_bind;
    try (specialize (IH filters);
         destruct (TransformUp collectFilters c filters) as [s1 [c'|err]];
         simpl in *; [by injection IH as -> | done]).
  specialize (IHl filters).
  destruct (TransformUp collectFilters l filters) as [s1 [l'|err]];
    simpl in *; [injection IHl as -> | done].
  specialize (IHr s1).
  destruct (TransformUp collectFilters r s1) as [s2 [r'|err]];
    simpl in *; [by injection IHr as -> | done].
Qed.

Lemma fixFieldIndexesOnExpressions_error (S : list Column) l err :
  fixFieldIndexesOnExpressions S l = Err err → ∃ name, err = ErrFieldMissing name.
Proof.
  intros (e & _ & He)%mapM_Err.
  pose proof (fixFieldIndexes_outcome S e) as Hout. rewrite He in Hout.
  destruct Hout as (name & -> & _). eauto.
Qed.

Lemma pushdownNode_error fieldsByTable exprsByTable filters node hf err :
  (pushdownNode fieldsByTable exprsByTable filters node hf).2 = Err err →
  ∃ name, err = ErrFieldMissing name.
Proof.
  unfold pushdownNode. destruct node; simpl; try done.
  - destruct (tCap t) as [| |HF]; simpl; try done.
    destruct (fixFieldIndexesOnExpressions _ (default [] _)) as [cols|err1]
      eqn:Hcols; simpl.
    + destruct (fixFieldIndexesOnExpressions _ (HF _)) as [handled|err2]
        eqn:Hhandled; simpl; [done|].
      intros [= <-]. by eapply fixFieldIndexesOnExpressions_error.
    + intros [= <-]. by eapply fixFieldIndexesOnExpressions_error.
  - destruct hf; [done|]. by destruct (getUnhandledFilters _ _).
Qed.

Lemma pushdownNode_grows fieldsByTable exprsByTable filters node hf :
  hf `prefix_of`
    (pushdownNode fieldsByTable exprsByTable filters node hf).1.
Proof.
  unfold pushdownNode. destruct node; simpl; try done.
  - destruct (tCap t) as [| |HF]; simpl; try done.
    destruct (fixFieldIndexesOnExpressions _ (default [] _)); simpl;
      [destruct (fixFieldIndexesOnExpressions _ (HF _)); simpl|];
      by apply prefix_app_r.
  - destruct hf; [done|]. by destruct (getUnhandledFilters _ _).
Qed.

(** Without a table that offers pushdown nothing is ever handled and
    every node comes back as it was. *)
Lemma pushdownNode_no_capability fieldsByTable exprsByTable filters n :
  containsPushdownTable n = false →
  TransformUp (pushdownNode fieldsByTable exprsByTable filters) n [] =
    ([], Ok n).
Proof.
  induction n as [name|t|exprs c IH|e c IH|fields c IH|c IH|c IH|l IHl r IHr
                 |name c IH|name c IH|db|db name schema|cols t|cols handled t];
    cbn -[pushdownNode]; intros Hcap; try done; unfold mbind;
    try (unfold St_bind at 1; rewrite IH by done; reflexivity).
  - unfold pushdownNode. by destruct (tCap t).
  - apply orb_false_iff in Hcap as [Hl Hr].
    unfold St_bind at 1. rewrite IHl by done.
    unfold St_bind at 1. rewrite IHr by done. reflexivity.
Qed.

(** The first pass keeps its three variables aligned. *)
Lemma collectField_aligned (e : Expression) (st : usedColumns) :
  usedAligned st → usedAligned (collectField e st).1.
Proof.
  intros Hst. unfold collectField.
  destruct e as [| |i ty table name nl| | | | | | | |]; try done.
  destruct (decide ((table, name) ∈ tableFields st)) as [|Hnew]; [done|].
  intros t. simpl. destruct (Hst t) as (Hnames & Htables & Hnodup & Hseen).
  destruct (decide (table = t)) as [->|Hne].
  - rewrite !lookup_insert_eq. simpl. split_and!.
    + by rewrite fmap_app, Hnames.
    + apply Forall_app. split; [done | by repeat constructor].
    + apply NoDup_app. split_and!; [done| |apply NoDup_singleton].
      intros x Hx ->%list_elem_of_singleton. by apply Hnew, Hseen.
    + intros x. rewrite elem_of_union, elem_of_singleton, elem_of_app,
        list_elem_of_singleton, Hseen.
      split; [intros [[= ->]|?]; auto | intros [?| ->]; auto].
  - rewrite !lookup_insert_ne by done. split_and!; [done..|].
    intros x. rewrite elem_of_union, elem_of_singleton, Hseen.
    split; [intros [[= ? ?]|?]; [done|auto] | auto].
Qed.

End pushdown_more.

(** X14.  [pushdown] can only fail with [FieldMissing]: the one source of
    errors is the re-indexing of the used columns and of the handled
    filters against a scan's schema. *)
Theorem pushdown_fails_only_with_FieldMissing `{!NodeSchema}
    (a : Analyzer) (n : Node) :
  match pushdown a n with
  | Ok _ => True
  | Err err => ∃ name, err = ErrFieldMissing name
  end.
Proof.
  unfold pushdown. destruct (negb (Resolved n)); [done|].
  pose proof (collectFilters_scan n ∅) as Hscan.
  destruct (TransformUp collectFilters n ∅) as [filters [node|err]];
    simpl in Hscan; [injection Hscan as ->|done].
  match goal with
  | |- context [TransformUp ?f n []] =>
      destruct (TransformUp f n []) as [hf [n'|err]] eqn:Hrun; simpl; [done|];
      eapply (TransformUp_St_errors
                (λ err, ∃ name, err = ErrFieldMissing name) f);
      [|by rewrite Hrun]
  end.
  intros m s err'. apply pushdownNode_error.
Qed.

(** X15.  A resolved plan none of whose tables offers a pushdown
    interface is returned by [pushdown] as it is: no filter is split or
    removed and no table is wrapped. *)
Theorem pushdown_without_capable_table `{!NodeSchema} (a : Analyzer) (n : Node) :
  Resolved n = true → containsPushdownTable n = false →
  pushdown a n = Ok n.
Proof.
  intros Hres Hcap. unfold pushdown. rewrite Hres. simpl.
  pose proof (collectFilters_scan n ∅) as Hscan.
  destruct (TransformUp collectFilters n ∅) as [filters [node|err]];
    simpl in Hscan; [injection Hscan as ->|done].
  by rewrite pushdownNode_no_capability.
Qed.

Section pushdown_example2.

#[local] Existing Instance examples.exampleSchema.
Import examples.

Lemma pushdown_without_capable_table_witness :
  Resolved (Filter (And (hashIs 1) (authorIs 2))
              (CrossJoin (ResolvedTable refs) (ResolvedTable remotes)))
    = true ∧
  containsPushdownTable
    (Filter (And (hashIs 1) (authorIs 2))
       (CrossJoin (ResolvedTable refs) (ResolvedTable remotes))) = false ∧
  pushdown inGitbase
    (Filter (And (hashIs 1) (authorIs 2))
       (CrossJoin (ResolvedTable refs) (ResolvedTable remotes))) =
  Ok (Filter (And (hashIs 1) (authorIs 2))
        (CrossJoin (ResolvedTable refs) (ResolvedTable remotes))).
Proof.
  split_and!; [reflexivity | reflexivity |].
  exact (pushdown_without_capable_table inGitbase
           (Filter (And (hashIs 1) (authorIs 2))
              (CrossJoin (ResolvedTable refs) (ResolvedTable remotes)))
           eq_refl eq_refl).
Defined.

End pushdown_example2.

Section pushdown_first_pass.

Lemma fieldSeen_mono (st st' : usedColumns) (l : list Expression) :
  tableFields st ⊆ tableFields st' →
  Forall (fieldSeen st) l → Forall (fieldSeen st') l.
Proof.
  intros Hsub Hall. eapply Forall_impl; [exact Hall|].
  intros [] ?; simpl in *; auto.
Qed.

(** One call of the callback: the expression comes back, nothing seen
    is forgotten, and a field accessor has been seen afterwards. *)
Lemma collectField_run (e : Expression) (st : usedColumns) :
  ∃ st', collectField e st = (st', Ok e) ∧
         tableFields st ⊆ tableFields st' ∧ fieldSeen st' e.
Proof.
  unfold collectField.
  destruct e as [| |i ty table name nl| | | | | | | |];
    try (exists st; by split_and!).
  destruct (decide ((table, name) ∈ tableFields st)).
  - exists st. by split_and!.
  - eexists. split_and!; [done| |]; simpl; set_solver.
Qed.

Lemma collected_refl st : collected st st [].
Proof. split; [done | constructor]. Qed.

Lemma collected_trans st1 st2 st3 fs1 fs2 :
  collected st1 st2 fs1 → collected st2 st3 fs2 →
  collected st1 st3 (fs1 ++ fs2).
Proof.
  intros [H1 F1] [H2 F2]. split; [by etrans|].
  apply Forall_app. split; [by eapply fieldSeen_mono | done].
Qed.

Lemma collect_mapM {A} (f : A → St usedColumns A) (fields : A → list Expression)
    (l : list A) :
  Forall (λ x, ∀ st, ∃ st', f x st = (st', Ok x) ∧
                            collected st st' (fields x)) l →
  ∀ st, ∃ st', mapM f l st = (st', Ok l) ∧
               collected st st' (concat (fields <$> l)).
Proof.
  induction 1 as [|x l Hx _ IH]; intros st; simpl.
  - exists st. split; [done | apply collected_refl].
  - destruct (Hx st) as (s1 & Hrun1 & Hc1).
    destruct (IH s1) as (s2 & Hrun2 & Hc2).
    exists s2. split; [|by eapply collected_trans].
    unfold mbind, St_bind at 1. rewrite Hrun1.
    unfold mbind, St_bind at 1. by rewrite Hrun2.
Qed.

Lemma collect_expr (e : Expression) :
  ∀ st, ∃ st', expression.TransformUp collectField e st = (st', Ok e) ∧
               collected st st' (getFields e).
Proof.
  induction e as [t n|n args IH|i ty t n nl| |v ty|c IH|l r IHl IHr|l r IHl IHr
                 |op l r IHl IHr|op l r IHl IHr|n args IH]
    using Expression_ind';
    intros st; cbn -[collectField].
  - exists st. split; [done | apply collected_refl].
  - destruct (collect_mapM _ getFields args IH st) as (s1 & Hrun & Hc).
    exists s1. split; [|done].
    unfold mbind, St_bind at 1. by rewrite Hrun.
  - destruct (collectField_run (GetField i ty t n nl) st) as (s1 & Hrun & ? & ?).
    exists s1. split; [done|]. split; [done | by repeat constructor].
  - exists st. split; [done | apply collected_refl].
  - exists st. split; [done | apply collected_refl].
  - destruct (IH st) as (s1 & Hrun & Hc). exists s1. split; [|done].
    unfold mbind, St_bind at 1. by rewrite Hrun.
  - destruct (IHl st) as (s1 & Hrun1 & Hc1).
    destruct (IHr s1) as (s2 & Hrun2 & Hc2).
    exists s2. split; [|by eapply collected_trans].
    unfold mbind, St_bind at 1. rewrite Hrun1.
    unfold St_bind at 1. by rewrite Hrun2.
  - destruct (IHl st) as (s1 & Hrun1 & Hc1).
    destruct (IHr s1) as (s2 & Hrun2 & Hc2).
    exists s2. split; [|by eapply collected_trans].
    unfold mbind, St_bind at 1. rewrite Hrun1.
    unfold St_bind at 1. by rewrite Hrun2.
  - destruct (IHl st) as (s1 & Hrun1 & Hc1).
    destruct (IHr s1) as (s2 & Hrun2 & Hc2).
    exists s2. split; [|by eapply collected_trans].
    unfold mbind, St_bind at 1. rewrite Hrun1.
    unfold St_bind at 1. by rewrite Hrun2.
  - destruct (IHl st) as (s1 & Hrun1 & Hc1).
    destruct (IHr s1) as (s2 & Hrun2 & Hc2).
    exists s2. split; [|by eapply collected_trans].
    unfold mbind, St_bind at 1. rewrite Hrun1.
    unfold St_bind at 1. by rewrite Hrun2.
  - destruct (collect_mapM _ getFields args IH st) as (s1 & Hrun & Hc).
    exists s1. split; [|done].
    unfold mbind, St_bind at 1. by rewrite Hrun.
Qed.

Lemma collect_exprs (l : list Expression) :
  ∀ st, ∃ st', mapM (expression.TransformUp collectField) l st = (st', Ok l) ∧
               collected st st' (concat (getFields <$> l)).
Proof.
  apply collect_mapM, Forall_forall. intros e _. apply collect_expr.
Qed.

Lemma collect_node (n : Node) :
  ∀ st, ∃ st', TransformExpressionsUp collectField n st = (st', Ok n) ∧
               collected st st' (concat (getFields <$> nodeExpressions n)).
Proof.
  intros st.
  destruct n; cbn -[collectField];
    try (exists st; split; [done | apply collected_refl]).
  - destruct (collect_exprs exprs st) as (s1 & Hrun & Hc).
    exists s1. split; [|done]. unfold mbind, St_bind at 1. by rewrite Hrun.
  - destruct (collect_expr e st) as (s1 & Hrun & Hc).
    exists s1. split; [|by rewrite app_nil_r].
    unfold mbind, St_bind at 1. by rewrite Hrun.
  - destruct (collect_mapM
                (λ sf, col ← expression.TransformUp collectField (sfColumn sf);
                       mret (mkSortField col (sfOrder sf)))
                (λ sf, getFields (sfColumn sf)) fields) with (st := st)
      as (s1 & Hrun & Hc).
    { apply Forall_forall. intros [column order] _ st0. simpl.
      destruct (collect_expr column st0) as (s1 & Hrun & Hc).
      exists s1. split; [|done]. unfold mbind, St_bind at 1. by rewrite Hrun. }
    exists s1. split.
    + unfold mbind in Hrun |- *. unfold St_bind at 1. by rewrite Hrun.
    + by rewrite <- list_fmap_compose.
  - destruct (collect_exprs cols st) as (s1 & Hrun1 & Hc1).
    destruct (collect_exprs handled s1) as (s2 & Hrun2 & Hc2).
    exists s2. split.
    + unfold mbind, St_bind at 1. rewrite Hrun1.
      unfold St_bind at 1. by rewrite Hrun2.
    + rewrite fmap_app, concat_app. by eapply collected_trans.
Qed.

Lemma collect_plan (n : Node) :
  ∀ st, ∃ st', TransformExpressionsUpTree collectField n st = (st', Ok n) ∧
               collected st st' (planFields n).
Proof.
  unfold TransformExpressionsUpTree.
  assert (∀ m fs st1 st2,
            collected st1 st2 fs →
            ∃ st', TransformExpressionsUp collectField m st2 = (st', Ok m) ∧
                   collected st1 st'
                     (concat (getFields <$> nodeExpressions m) ++ fs))
    as Hnode.
  { intros m fs st1 st2 [Hsub Hfs].
    destruct (collect_node m st2) as (st' & Hrun & Hsub' & Hown).
    exists st'. split; [done|]. split; [by etrans|].
    apply Forall_app. split; [done | by eapply fieldSeen_mono]. }
  induction n as [name|t|exprs c IH|e c IH|fields c IH|c IH|c IH|l IHl r IHr
                 |name c IH|name c IH|db|db name schema|cols t|cols handled t];
    intros st; cbn -[TransformExpressionsUp nodeExpressions];
    try (match goal with
         | |- context [TransformExpressionsUp _ ?m st] =>
             destruct (Hnode m [] st st (collected_refl st))
               as (st' & Hrun & Hc)
         end; exists st'; by split);
    try (destruct (IH st) as (s1 & Hrun1 & Hc1);
         match goal with
         | |- context [Ok ?m] =>
             destruct (Hnode m _ st s1 Hc1) as (st' & Hrun & Hc)
         end;
         exists st'; split; [|exact Hc];
         unfold mbind, St_bind at 1; by rewrite Hrun1).
  destruct (IHl st) as (s1 & Hrun1 & Hc1).
  destruct (IHr s1) as (s2 & Hrun2 & Hc2).
  destruct (Hnode (CrossJoin l r) _ st s2 (collected_trans _ _ _ _ _ Hc1 Hc2))
    as (st' & Hrun & Hc).
  exists st'. split; [|exact Hc].
  unfold mbind, St_bind at 1. rewrite Hrun1.
  unfold St_bind at 1. by rewrite Hrun2.
Qed.

End pushdown_first_pass.

(** X16.  The first pass of [pushdown] visits the expressions of every
    node of the plan and keeps its bookkeeping aligned.  For every table,
    the names in [fieldsByTable] are the names of the expressions in
    [exprsByTable], in the same order; those expressions are field
    accessors of that table; no column is listed twice; and [tableFields]
    holds exactly the listed pairs.  Every field accessor of every
    expression of the plan, at whatever node, has its column listed under
    its table. *)
Theorem pushdown_used_columns_aligned (n : Node) :
  usedAligned (TransformExpressionsUpTree collectField n usedInit).1 ∧
  ∀ i ty table name nullable,
    GetField i ty table name nullable ∈ planFields n →
    name ∈ default []
      (fieldsByTable (TransformExpressionsUpTree collectField n usedInit).1
         !! table).
Proof.
  assert (usedAligned (TransformExpressionsUpTree collectField n usedInit).1)
    as Haligned.
  { unfold TransformExpressionsUpTree. apply TransformUp_St_invariant.
    - intros m s. apply TransformExpressionsUp_St_invariant.
      intros e s'. apply collectField_aligned.
    - intros t. simpl. rewrite !lookup_empty. simpl.
      split_and!; [done | constructor | constructor |].
      intros name. rewrite elem_of_nil. set_solver. }
  split; [done|].
  intros i ty table name nullable Hin.
  destruct (collect_plan n usedInit) as (st' & Hrun & _ & Hseen).
  rewrite Hrun in Haligned |- *. simpl in *.
  rewrite Forall_forall in Hseen. specialize (Hseen _ Hin). simpl in Hseen.
  by apply (Haligned table).
Qed.

(** X17.  In the rewrite pass [handledFilters] only ever grows at its
    end: whatever plan is traversed, the list it starts with is a prefix
    of the list it ends with, so a filter once reported handled stays
    handled for every [Filter] visited later. *)
Theorem pushdown_handledFilters_grow `{!NodeSchema}
    (fieldsByTable : gmap string (list string))
    (exprsByTable filters : gmap string (list Expression))
    (n : Node) (handledFilters : list Expression) :
  handledFilters `prefix_of`
    (TransformUp (pushdownNode fieldsByTable exprsByTable filters) n
                 handledFilters).1.
Proof.
  apply (TransformUp_St_invariant (λ s, handledFilters `prefix_of` s));
    [|done].
  intros m s Hs. etrans; [exact Hs|]. apply pushdownNode_grows.
Qed.

(** ** [resolveDatabase], continued *)

(** X18.  After [resolveDatabase] has run without error on a
    [ShowTables] or [CreateTable] root, that root is resolved; and
    running the rule a second time leaves the store of nodes as the first
    run left it. *)
Theorem resolveDatabase_resolves_root (a : Analyzer) (n : loc) (w : World) :
  heap (resolveDatabase a n (resolveDatabase a n w).1).1 =
    heap (resolveDatabase a n w).1 ∧
  ∀ P, heap w !! n = Some P → introspects P = true →
       (resolveDatabase a n w).2.2 = None →
       ∃ P', heap (resolveDatabase a n w).1 !! n = Some P' ∧
             Resolved P' = true.
Proof.
  split.
  - unfold resolveDatabase at 2 3.
    destruct (heap w !! n) as [P|] eqn:HP.
    + destruct P; try (unfold resolveDatabase; simpl; by rewrite HP);
        (destruct (Database (Catalog a) (CurrentDatabase a)) as [d|err] eqn:Hd;
         unfold resolveDatabase; simpl;
         [ by rewrite lookup_insert_eq, Hd, insert_insert_eq
         | by rewrite HP, Hd ]).
    + unfold resolveDatabase. simpl. by rewrite HP.
  - intros P HP Hintro. unfold resolveDatabase. rewrite HP.
    destruct P; try done;
      (destruct (Database (Catalog a) (CurrentDatabase a)) as [d|err];
       simpl; [|done]; intros _; eexists;
       split; [apply lookup_insert_eq | done]).
Qed.

(** ** Running a rule on its own result *)

Section idempotence_facts.

Context `{!NodeSchema}.

Lemma pushdownNode_output fieldsByTable exprsByTable filters node hf hf' out :
  Forall (λ c, containsPushdownTable c = false) (Children node) →
  pushdownNode fieldsByTable exprsByTable filters node hf = (hf', Ok out) →
  containsPushdownTable out = false.
Proof.
  intros Hchildren. unfold pushdownNode.
  destruct node; simpl in *;
    try (intros [= _ <-]; simpl;
         repeat match goal with
                | H : Forall _ (_ :: _) |- _ => inversion H; subst; clear H
                end;
         by rewrite ?orb_false_iff).
  - destruct (tCap t) as [| |HF] eqn:Hcap; simpl.
    + intros [= _ <-]. simpl. by rewrite Hcap.
    + by intros [= _ <-].
    + destruct (fixFieldIndexesOnExpressions _ (default [] _)); [|done].
      destruct (fixFieldIndexesOnExpressions _ (HF _)); [|done].
      by intros [= _ <-].
  - inversion Hchildren; subst.
    destruct hf; [by intros [= _ <-]|].
    destruct (getUnhandledFilters _ _); by intros [= _ <-].
Qed.

Lemma pushdown_pass_output fieldsByTable exprsByTable filters n hf hf' out :
  TransformUp (pushdownNode fieldsByTable exprsByTable filters) n hf
    = (hf', Ok out) →
  containsPushdownTable out = false.
Proof.
  revert hf hf' out.
  induction n as [name|t|exprs c IH|e c IH|fields c IH|c IH|c IH|l IHl r IHr
                 |name c IH|name c IH|db|db name schema|cols t|cols handled t];
    intros hf hf' out; cbn -[pushdownNode];
    try (apply pushdownNode_output; by constructor);
    unfold mbind;
    try (unfold St_bind at 1;
         match goal with
         | |- context [TransformUp ?f c hf] =>
             destruct (TransformUp f c hf) as [s1 [c'|err]] eqn:Hc; [|done]
         end;
         apply pushdownNode_output; constructor; [by eapply IH | constructor]).
  unfold St_bind at 1.
  match goal with
  | |- context [TransformUp ?f l hf] =>
      destruct (TransformUp f l hf) as [s1 [l'|err]] eqn:Hl; [|done]
  end.
  unfold St_bind at 1.
  match goal with
  | |- context [TransformUp ?f r s1] =>
      destruct (TransformUp f r s1) as [s2 [r'|err]] eqn:Hr; [|done]
  end.
  apply pushdownNode_output.
  constructor; [by eapply IHl | constructor; [by eapply IHr | constructor]].
Qed.

Lemma bindTables_none lookup (n : Node) :
  unresolvedTables n = [] → bindTables lookup n = n.
Proof.
  induction n; simpl; intros Hnone; try done; try (by rewrite IHn).
  apply app_eq_nil in Hnone as [Hl Hr]. by rewrite IHn1, IHn2.
Qed.

End idempotence_facts.

(** X19.  [pushdown] is idempotent: a plan it returned goes through the
    rule a second time unchanged.  Every table that offered pushdown has
    been wrapped, wrapped tables are passed over, and with nothing handled
    in the second run the remaining filters stay as they are. *)
Theorem pushdown_idempotent `{!NodeSchema} (a : Analyzer) (n n' : Node) :
  pushdown a n = Ok n' → pushdown a n' = Ok n'.
Proof.
  intros Hrun.
  assert (Resolved n' = true → containsPushdownTable n' = false) as Hcap.
  { intros Hres'. unfold pushdown in Hrun.
    destruct (Resolved n) eqn:Hres; simpl in Hrun.
    - pose proof (collectFilters_scan n ∅) as Hscan.
      destruct (TransformUp collectFilters n ∅) as [filters [node|err]];
        simpl in Hscan; [injection Hscan as ->|done].
      match type of Hrun with
      | (TransformUp ?f n []).2 = _ =>
          destruct (TransformUp f n []) as [hf out] eqn:Hpass
      end.
      simpl in Hrun. subst out. by eapply pushdown_pass_output.
    - injection Hrun as <-. congruence. }
  unfold pushdown. destruct (Resolved n') eqn:Hres'; [|done]. simpl.
  pose proof (collectFilters_scan n' ∅) as Hscan.
  destruct (TransformUp collectFilters n' ∅) as [filters [node|err]];
    simpl in Hscan; [injection Hscan as ->|done].
  by rewrite pushdownNode_no_capability by auto.
Qed.

Section pushdown_example3.

#[local] Existing Instance examples.exampleSchema.
Import examples.

Lemma pushdown_idempotent_witness :
  pushdown inGitbase
    (Filter (And (hashIs 5) (authorIs 6)) (ResolvedTable commits)) =
  Ok (Filter (authorIs 6)
        (PushdownProjectionAndFiltersTable
           [ GetField 0 Text "commits" "hash" false;
             GetField 1 Text "commits" "author" false ]
           [ hashIs 0 ] commits)) ∧
  pushdown inGitbase
    (Filter (authorIs 6)
       (PushdownProjectionAndFiltersTable
          [ GetField 0 Text "commits" "hash" false;
            GetField 1 Text "commits" "author" false ]
          [ hashIs 0 ] commits)) =
  Ok (Filter (authorIs 6)
        (PushdownProjectionAndFiltersTable
           [ GetField 0 Text "commits" "hash" false;
             GetField 1 Text "commits" "author" false ]
           [ hashIs 0 ] commits)).
Proof.
  split; [vm_compute; reflexivity|].
  apply (pushdown_idempotent inGitbase
           (Filter (And (hashIs 5) (authorIs 6)) (ResolvedTable commits))).
  vm_compute. reflexivity.
Defined.

End pushdown_example3.

(** X20.  [resolveTables] is idempotent: a plan it returned holds no
    [UnresolvedTable] any more, so a second run returns it unchanged and
    asks the catalog nothing that could fail. *)
Theorem resolveTables_idempotent (a : Analyzer) (n n' : Node) :
  resolveTables a n = Ok n' → resolveTables a n' = Ok n'.
Proof.
  intros Hrun.
  pose proof (resolveTables_outcome a n) as Hout. rewrite Hrun in Hout.
  destruct Hout as (_ & _ & Hnone).
  pose proof (resolveTables_outcome a n') as Hout'.
  destruct (resolveTables a n') as [n''|err].
  - destruct Hout' as (-> & _ & _). by rewrite bindTables_none.
  - destruct Hout' as (before & name & after & Heq & _).
    rewrite Hnone in Heq. by destruct before.
Qed.

Lemma resolveTables_idempotent_witness :
  resolveTables examples.inGitbase
    (CrossJoin (UnresolvedTable "refs") (UnresolvedTable "remotes")) =
  Ok (CrossJoin (ResolvedTable examples.refs)
                (ResolvedTable examples.remotes)) ∧
  resolveTables examples.inGitbase
    (CrossJoin (ResolvedTable examples.refs)
               (ResolvedTable examples.remotes)) =
  Ok (CrossJoin (ResolvedTable examples.refs)
                (ResolvedTable examples.remotes)).
Proof.
  split; [reflexivity|].
  exact (resolveTables_idempotent examples.inGitbase
           (CrossJoin (UnresolvedTable "refs") (UnresolvedTable "remotes"))
           (CrossJoin (ResolvedTable examples.refs)
                      (ResolvedTable examples.remotes))
           eq_refl).
Defined.
